(** * Creator Reels: navigation cursor, filter, session gate and link dispatch

    A shallow embedding of [src/app/page.tsx].  The source file carries the
    page component twice: the file proper (lines 1-285, header "Modern UI,
    Null-Safe, TS fix"), called the Modern revision below, and after a
    separator line another revision of it (lines 286-468, header "Hardened
    & Null-Safe"), called the Hardened revision.  What the two share is
    embedded once; where they differ the definitions live in the modules
    [Modern] and [Hardened].

    Conventions of the embedding:
    - a JavaScript string is a [string], the sequence of its units;
      [String.prototype.trim] and [String.prototype.toLowerCase], which
      follow the Unicode tables, are parameters ([Js.Builtins]) of which
      nothing is assumed but their values on the empty string; the
      scenarios at the end run with their restrictions to ASCII;
    - a JavaScript number that holds an index or a pixel coordinate is a [Z];
      [%] is the truncating remainder [Z.rem];
    - [null] and [undefined] are [None];
    - handlers are computations in a state-and-exception monad over the
      component state together with the browser environment. *)

From Stdlib Require Import ZArith Ascii String List Bool Lia.
From stdpp Require Import gmap strings list.

Local Open Scope string_scope.

(** ** JavaScript strings *)

Module Js.

(** A string is falsy exactly when it is empty. *)
Definition truthy (s : string) : bool :=
  match s with
  | EmptyString => false
  | String _ _ => true
  end.

(** [a || b] on strings. *)
Definition or_else (a b : string) : string :=
  if truthy a then a else b.

(** The two built-ins of [String.prototype] that the filter calls.  Their
    tables are not part of the repository, so they are parameters, with the
    two facts about them that the page relies on: trimming the empty string
    gives the empty string, and lower-casing gives the empty string for the
    empty string only. *)
Class Builtins := {
  trim : string -> string;               (* [s.trim()] *)
  toLowerCase : string -> string;        (* [s.toLowerCase()] *)
  trim_empty_string : trim EmptyString = EmptyString;
  toLowerCase_empty : forall s, toLowerCase s = EmptyString <-> s = EmptyString;
}.

(** The restrictions of the two built-ins to ASCII, with which the examples
    are run: on text of ASCII characters they are the built-ins. *)
Definition lower_ascii (c : ascii) : ascii :=
  let n := nat_of_ascii c in
  if (65 <=? n)%nat && (n <=? 90)%nat then ascii_of_nat (n + 32) else c.

Fixpoint ascii_toLowerCase (s : string) : string :=
  match s with
  | EmptyString => EmptyString
  | String c s' => String (lower_ascii c) (ascii_toLowerCase s')
  end.

(** TAB, LF, VT, FF, CR and SPACE. *)
Definition is_white_space (c : ascii) : bool :=
  let n := nat_of_ascii c in
  ((9 <=? n)%nat && (n <=? 13)%nat) || (n =? 32)%nat.

Fixpoint ascii_trimStart (s : string) : string :=
  match s with
  | EmptyString => EmptyString
  | String c s' => if is_white_space c then ascii_trimStart s' else s
  end.

Fixpoint ascii_trimEnd (s : string) : string :=
  match s with
  | EmptyString => EmptyString
  | String c s' =>
      let r := ascii_trimEnd s' in
      if is_white_space c && negb (truthy r) then EmptyString else String c r
  end.

Definition ascii_trim (s : string) : string := ascii_trimEnd (ascii_trimStart s).

Definition ascii_builtins : Builtins.
Proof.
  refine {| trim := ascii_trim; toLowerCase := ascii_toLowerCase |}.
  - reflexivity.
  - intros s. destruct s; simpl; split; congruence.
Defined.

(** [t.includes(q)]: [q] occurs in [t] at some position. *)
Fixpoint includes (t q : string) : bool :=
  String.prefix q t ||
  match t with
  | EmptyString => false
  | String _ t' => includes t' q
  end.

(** [a[i]] for an array [a] and an integer-valued number [i]: the element
    when [0 <= i < a.length], [undefined] otherwise. *)
Definition index_array {A} (a : list A) (i : Z) : option A :=
  if (0 <=? i)%Z then a !! Z.to_nat i else None.

End Js.

(** ** Data *)

(** [interface Model], lines 19-24: [tags] is optional. *)
Record Model := {
  name : string;
  url : string;
  image : string;
  tags : option (list string);
}.

#[global] Instance Model_eq_dec : EqDecision Model.
Proof. solve_decision. Defined.

(** [MODELS], lines 29-60: the three records of [RAW_MODELS], which the
    normalisation leaves as they are (no field is missing). *)
Definition MODELS : list Model :=
  [ {| name := "Charvi Bhatt";
       url := "https://link-shortner-indol-nu.vercel.app/v0riwp";
       image := "https://i.ibb.co/xqwpVcCB/IMG-20251110-003150-720.jpg";
       tags := Some ["actress"; "biography"; "reels"] |};
    {| name := "Arushi Chatterjee";
       url := "https://link-shortner-indol-nu.vercel.app/gpvegn";
       image := "https://i.ibb.co/5WrM1PSf/photo-2025-11-10-08-09-45.jpg";
       tags := Some ["actress"; "bio"] |};
    {| name := "Your Creator 3";
       url := "#";
       image := "https://placehold.co/720x1280?text=Creator+3%5Cn9:16";
       tags := Some ["new"] |} ].

(** ** Filter engine (lines 101-106 and 368-373)

    Both revisions compute the same sequence; the first returns fresh copies
    ([[...MODELS]]), the second the frozen array itself.  The directory is a
    parameter here, [MODELS] above is the one the page is built with. *)

(** [[m.name, ...(m.tags || [])]] *)
Definition haystack (m : Model) : list string :=
  name m :: default [] (tags m).

(** The predicate handed to [Array.prototype.filter]. *)
Definition matches `{!Js.Builtins} (q : string) (m : Model) : bool :=
  existsb (fun t => Js.includes (Js.toLowerCase t) q) (haystack m).

Definition filtered `{!Js.Builtins} (models : list Model) (query : string) :
    list Model :=
  let q := Js.toLowerCase (Js.trim (Js.or_else query "")) in
  if negb (Js.truthy q) then models
  else
    let result := List.filter (matches q) models in
    if (0 <? length result)%nat then result else models.

(** ** Navigation cursor (lines 109-116 and 375-381) *)

Local Open Scope Z_scope.

(** [Math.max(filtered.length, 1)] *)
Definition cycleLen (filtered : list Model) : Z :=
  Z.max (Z.of_nat (length filtered)) 1.

(** The updater [next] passes to [setIndex]. *)
Definition next_index (cycleLen i : Z) : Z := (i + 1) `rem` cycleLen.

(** The updater [prev] passes to [setIndex]. *)
Definition prev_index (cycleLen i : Z) : Z := (i - 1 + cycleLen) `rem` cycleLen.

(** ** The browser environment and the handler monad *)

(** What a handler can raise. *)
Inductive JsError :=
  | ReferenceError   (* [window] is not defined *)
  | DOMException.    (* storage access denied, quota exceeded *)

Inductive Result (A : Type) :=
  | Ok (a : A)
  | Throw (e : JsError).
Arguments Ok {A} a.
Arguments Throw {A} e.

(** The part of the [window] object the page touches. *)
Record Window := {
  getItem_throws : bool;              (* [sessionStorage.getItem] raises *)
  setItem_throws : bool;              (* [sessionStorage.setItem] raises *)
  sessionStorage : gmap string string;
  opened : list string;               (* URLs given to [window.open], oldest first *)
}.

(** [useState] cells, [useRef] cells and the environment of [Page]
    (lines 89-93).  [window = None] is [typeof window === "undefined"]. *)
Record State := {
  index : Z;
  query : string;
  interstitialFor : option Model;
  wheelLock : bool;
  touchY : option Z;
  window : option Window;
}.

Definition M (A : Type) : Type := State -> Result A * State.

#[global] Instance M_ret : MRet M := fun A a s => (Ok a, s).
#[global] Instance M_bind : MBind M := fun A B f m s =>
  match m s with
  | (Ok a, s') => f a s'
  | (Throw e, s') => (Throw e, s')
  end.

(** [try { m } catch { h }] *)
Definition try_catch {A} (m h : M A) : M A := fun s =>
  match m s with
  | (Ok a, s') => (Ok a, s')
  | (Throw _, s') => h s'
  end.

Definition exec {A} (m : M A) (s : State) : State := snd (m s).
Definition outcome {A} (m : M A) (s : State) : Result A := fst (m s).

Definition set_window (w : Window) (s : State) : State :=
  {| index := index s; query := query s; interstitialFor := interstitialFor s;
     wheelLock := wheelLock s; touchY := touchY s; window := Some w |}.

Definition get {A} (proj : State -> A) : M A := fun s => (Ok (proj s), s).

Definition setIndex (f : Z -> Z) : M unit := fun s =>
  (Ok tt, {| index := f (index s); query := query s;
             interstitialFor := interstitialFor s; wheelLock := wheelLock s;
             touchY := touchY s; window := window s |}).

Definition setQuery (q : string) : M unit := fun s =>
  (Ok tt, {| index := index s; query := q;
             interstitialFor := interstitialFor s; wheelLock := wheelLock s;
             touchY := touchY s; window := window s |}).

Definition setInterstitialFor (m : option Model) : M unit := fun s =>
  (Ok tt, {| index := index s; query := query s;
             interstitialFor := m; wheelLock := wheelLock s;
             touchY := touchY s; window := window s |}).

Definition set_wheelLock (b : bool) : M unit := fun s =>
  (Ok tt, {| index := index s; query := query s;
             interstitialFor := interstitialFor s; wheelLock := b;
             touchY := touchY s; window := window s |}).

Definition set_touchY (y : option Z) : M unit := fun s =>
  (Ok tt, {| index := index s; query := query s;
             interstitialFor := interstitialFor s; wheelLock := wheelLock s;
             touchY := y; window := window s |}).

(** [typeof window !== "undefined"] *)
Definition window_defined : M bool := get (fun s => bool_decide (is_Some (window s))).

(** [window.sessionStorage.getItem(k)] *)
Definition sessionStorage_getItem (k : string) : M (option string) := fun s =>
  match window s with
  | None => (Throw ReferenceError, s)
  | Some w =>
      if getItem_throws w then (Throw DOMException, s)
      else (Ok (sessionStorage w !! k), s)
  end.

(** [window.sessionStorage.setItem(k, v)] *)
Definition sessionStorage_setItem (k v : string) : M unit := fun s =>
  match window s with
  | None => (Throw ReferenceError, s)
  | Some w =>
      if setItem_throws w then (Throw DOMException, s)
      else (Ok tt,
            set_window {| getItem_throws := getItem_throws w;
                          setItem_throws := setItem_throws w;
                          sessionStorage := <[k:=v]> (sessionStorage w);
                          opened := opened w |} s)
  end.

(** [window.open(u, "_blank", "noopener,noreferrer")]: the call is recorded;
    a blocked popup is not an exception. *)
Definition window_open (u : string) : M unit := fun s =>
  match window s with
  | None => (Throw ReferenceError, s)
  | Some w =>
      (Ok tt,
       set_window {| getItem_throws := getItem_throws w;
                     setItem_throws := setItem_throws w;
                     sessionStorage := sessionStorage w;
                     opened := opened w ++ [u] |} s)
  end.

(** ** Session gate (lines 119-124 and 383-388, the same in both revisions) *)

Definition safeGetSession (k : string) : M (option string) :=
  try_catch
    (b ← window_defined;
     if b : bool then sessionStorage_getItem k else mret None)
    (mret None).

Definition safeSetSession (k v : string) : M unit :=
  try_catch
    (b ← window_defined;
     if b : bool then sessionStorage_setItem k v else mret tt)
    (mret tt).

(** line 96 *)
Definition onceKey : string := "monetag_interstitial_once".

(** [safeGetSession(onceKey) === "1"], the gate's [hasBeenShown]. *)
Definition hasBeenShown : M bool :=
  v ← safeGetSession onceKey; mret (bool_decide (v = Some "1")).

(** [safeSetSession(onceKey, "1")], the gate's [markShown]. *)
Definition markShown : M unit := safeSetSession onceKey "1".

(** line 95: [process.env.NEXT_PUBLIC_MONETAG_URL || "https://otieu.com/4/9449507"] *)
Definition adUrl (NEXT_PUBLIC_MONETAG_URL : option string) : string :=
  Js.or_else (default "" NEXT_PUBLIC_MONETAG_URL) "https://otieu.com/4/9449507".

(** ** Touch events: the [clientY] of each [Touch] of the two lists *)
Record TouchEvent := {
  touches : list Z;
  changedTouches : list Z;
}.

(** What the user and the timer can do to the page. *)
Inductive Event :=
  | Wheel (deltaY : Z)
  | WheelTimeout
  | KeyDown (key : string)
  | TouchStart (e : TouchEvent)
  | TouchEnd (e : TouchEvent)
  | Input (value : string)
  | ClickPrevious
  | ClickNext
  | ClickOpen
  | ClickProceed
  | ClickClose.

(** [useState(0)], [useState("")], [useState(null)], [useRef(false)],
    [useRef(null)]. *)
Definition initial (w : option Window) : State :=
  {| index := 0; query := ""; interstitialFor := None; wheelLock := false;
     touchY := None; window := w |}.

(** [next] and [prev] (lines 115-116 and 380-381), for the [cycleLen] of the
    render whose closure they belong to. *)
Definition next (cycleLen : Z) : M unit := setIndex (next_index cycleLen).
Definition prev (cycleLen : Z) : M unit := setIndex (prev_index cycleLen).

(** [onTouchStart] (lines 159 and 423) *)
Definition onTouchStart (e : TouchEvent) : M unit := set_touchY (head (touches e)).

(** [onWheel] (lines 144-147 and 410-416) *)
Definition onWheel (cycleLen : Z) (deltaY : Z) : M unit :=
  locked ← get wheelLock;
  if locked : bool then mret tt
  else
    set_wheelLock true ;;
    if 10 <? deltaY then next cycleLen
    else if deltaY <? -10 then prev cycleLen
    else mret tt.

(** What is drawn in the reel canvas. *)
Inductive Reel :=
  | Card (m : Model)
  | EmptyState (text : string).

(** ** The Modern revision (lines 88-285) *)

Module Modern.
Section Page.
Context `{!Js.Builtins}.
Context (NEXT_PUBLIC_MONETAG_URL : option string) (models : list Model).

(** The effect of lines 109-112, run after a render in which [filtered] or
    [index] changed. *)
Definition clamp_effect : M unit :=
  i ← get index;
  q ← get query;
  let len := Z.of_nat (length (filtered models q)) in
  if len =? 0 then (if negb (i =? 0) then setIndex (fun _ => 0) else mret tt)
  else if (len <=? i) || (i <? 0) then setIndex (fun _ => 0)
  else mret tt.

(** lines 126-131 *)
Definition openLink (m : option Model) : M unit :=
  match m with
  | None => mret tt
  | Some m =>
      if negb (Js.truthy (url m)) then mret tt
      else
        shown ← hasBeenShown;
        if Js.truthy (adUrl NEXT_PUBLIC_MONETAG_URL) && negb shown
        then setInterstitialFor (Some m)
        else try_catch (window_open (url m)) (mret tt)
  end.

(** lines 133-139 *)
Definition proceed : M unit :=
  m ← get interstitialFor;
  setInterstitialFor None ;;
  match m with
  | Some m' =>
      if negb (Js.truthy (url m')) then mret tt
      else
        (if Js.truthy (adUrl NEXT_PUBLIC_MONETAG_URL)
         then try_catch (window_open (adUrl NEXT_PUBLIC_MONETAG_URL)) (mret tt)
         else mret tt) ;;
        safeSetSession onceKey "1" ;;
        try_catch (window_open (url m')) (mret tt)
  | None => mret tt
  end.

(** The close button of the interstitial, line 272. *)
Definition dismiss : M unit := setInterstitialFor None.

(** lines 148-151 *)
Definition onKey (cycleLen : Z) (key : string) : M unit :=
  (if String.eqb key "ArrowDown" then next cycleLen else mret tt) ;;
  (if String.eqb key "ArrowUp" then prev cycleLen else mret tt).

(** lines 160-163 *)
Definition onTouchEnd (cycleLen : Z) (e : TouchEvent) : M unit :=
  let y := head (changedTouches e) in
  y0 ← get touchY;
  match y0, y with
  | Some y0, Some y =>
      let dy := y - y0 in
      if Z.abs dy <? 40 then mret tt
      else
        (if dy <? 0 then next cycleLen else prev cycleLen) ;;
        set_touchY None
  | _, _ => mret tt
  end.

(** line 169 *)
Definition current (s : State) : option Model :=
  let f := filtered models (query s) in
  if (0 <? length f)%nat then Js.index_array f (index s) else None.

(** lines 222-251 *)
Definition reel (s : State) : Reel :=
  match current s with
  | Some m => Card m
  | None => EmptyState "No creators match your search."
  end.

(** The [cycleLen] in the closures of the effects with an empty dependency
    list (lines 142-167): that of the first render, where [query] is
    empty. *)
Definition mount_cycleLen : Z := cycleLen (filtered models "").

(** The [cycleLen] of the latest render (line 114). *)
Definition render_cycleLen : M Z :=
  q ← get query; mret (cycleLen (filtered models q)).

(** The handler each event reaches.  A button that is not drawn cannot be
    clicked: the open button needs a current record (line 222), the
    interstitial's buttons need a pending record (line 258). *)
Definition handle (ev : Event) : M unit :=
  match ev with
  | Wheel deltaY => onWheel mount_cycleLen deltaY
  | WheelTimeout => set_wheelLock false
  | KeyDown key => onKey mount_cycleLen key
  | TouchStart e => onTouchStart e
  | TouchEnd e => onTouchEnd mount_cycleLen e
  | Input value => setQuery value
  | ClickPrevious => c ← render_cycleLen; prev c
  | ClickNext => c ← render_cycleLen; next c
  | ClickOpen =>
      c ← get current;
      match c with Some _ => openLink c | None => mret tt end
  | ClickProceed =>
      m ← get interstitialFor;
      match m with Some _ => proceed | None => mret tt end
  | ClickClose =>
      m ← get interstitialFor;
      match m with Some _ => dismiss | None => mret tt end
  end.

(** An event, then the render it causes with its clamp effect. *)
Definition dispatch (ev : Event) (s : State) : State :=
  exec clamp_effect (exec (handle ev) s).

Definition run (evs : list Event) (s : State) : State :=
  fold_left (fun s ev => dispatch ev s) evs s.
End Page.
End Modern.

(** ** The Hardened revision (lines 356-468) *)

Module Hardened.
Section Page.
Context `{!Js.Builtins}.
Context (NEXT_PUBLIC_MONETAG_URL : option string) (models : list Model).

(** The effect of lines 375-377. *)
Definition clamp_effect : M unit :=
  i ← get index;
  q ← get query;
  let len := Z.of_nat (length (filtered models q)) in
  if len <=? i then setIndex (fun _ => 0) else mret tt.

(** lines 390-398 *)
Definition openLink (m : option Model) : M unit :=
  match m with
  | None => mret tt
  | Some m =>
      if negb (Js.truthy (url m)) then mret tt
      else
        shown ← hasBeenShown;
        if Js.truthy (adUrl NEXT_PUBLIC_MONETAG_URL) && negb shown
        then setInterstitialFor (Some m)
        else window_open (url m)
  end.

(** lines 400-406 *)
Definition proceed : M unit :=
  m ← get interstitialFor;
  setInterstitialFor None ;;
  (if Js.truthy (adUrl NEXT_PUBLIC_MONETAG_URL)
   then window_open (adUrl NEXT_PUBLIC_MONETAG_URL)
   else mret tt) ;;
  safeSetSession onceKey "1" ;;
  match m with
  | Some m' => if Js.truthy (url m') then window_open (url m') else mret tt
  | None => mret tt
  end.

(** lines 424-430 *)
Definition onTouchEnd (cycleLen : Z) (e : TouchEvent) : M unit :=
  let y := head (changedTouches e) in
  y0 ← get touchY;
  match y0, y with
  | Some y0, Some y =>
      let dy := y - y0 in
      (if 40 <? Z.abs dy
       then (if dy <? 0 then next cycleLen else prev cycleLen)
       else mret tt) ;;
      set_touchY None
  | _, _ => mret tt
  end.

(** line 439 *)
Definition current (s : State) : option Model :=
  Js.index_array (filtered models (query s)) (index s).

(** lines 444-454 *)
Definition reel (s : State) : Reel :=
  match current s with
  | Some m => Card m
  | None => EmptyState "No creators"
  end.

Definition mount_cycleLen : Z := cycleLen (filtered models "").

(** This revision draws no search box, no previous and next buttons and no
    close button, and listens to no key. *)
Definition handle (ev : Event) : M unit :=
  match ev with
  | Wheel deltaY => onWheel mount_cycleLen deltaY
  | WheelTimeout => set_wheelLock false
  | TouchStart e => onTouchStart e
  | TouchEnd e => onTouchEnd mount_cycleLen e
  | ClickOpen =>
      c ← get current;
      match c with Some _ => openLink c | None => mret tt end
  | ClickProceed =>
      m ← get interstitialFor;
      match m with Some _ => proceed | None => mret tt end
  | KeyDown _ | Input _ | ClickPrevious | ClickNext | ClickClose => mret tt
  end.

Definition dispatch (ev : Event) (s : State) : State :=
  exec clamp_effect (exec (handle ev) s).

Definition run (evs : list Event) (s : State) : State :=
  fold_left (fun s ev => dispatch ev s) evs s.
End Page.
End Hardened.

(** ** The filter as the specification words it *)

(** [q] occurs in [t] when letter case is ignored: lower-cased, [q] occurs
    in the lower-cased [t]. *)
Definition ci_substring `{!Js.Builtins} (q t : string) : Prop :=
  exists pre post,
    Js.toLowerCase t = pre +:+ Js.toLowerCase q +:+ post.

(** The name or at least one tag contains [q]. *)
Definition record_matches `{!Js.Builtins} (q : string) (m : Model) : Prop :=
  ci_substring q (name m) \/
  exists t, In t (default [] (tags m)) /\ ci_substring q t.

(** [r] holds exactly the elements of [d] that satisfy [P], each as often as
    and in the order in which [d] has them. *)
Inductive stable_selection {A} (P : A -> Prop) : list A -> list A -> Prop :=
  | selection_nil : stable_selection P [] []
  | selection_keep x d r :
      P x -> stable_selection P d r -> stable_selection P (x :: d) (x :: r)
  | selection_drop x d r :
      ~ P x -> stable_selection P d r -> stable_selection P (x :: d) r.

(** The cursor designates a record of the visible sequence, or is 0 on an
    empty one. *)
Definition in_range `{!Js.Builtins} (models : list Model) (s : State) : Prop :=
  0 <= index s < cycleLen (filtered models (query s)).

(** ** What the session helpers and [window.open] leave behind *)

(** The stored value the helper reads, [None] when there is no window or the
    read raises. *)
Definition stored (k : string) (s : State) : option string :=
  match window s with
  | Some w => if getItem_throws w then None else sessionStorage w !! k
  | None => None
  end.

(** The state the helper leaves: the write done when there is a window and
    the write does not raise, the state as it was otherwise. *)
Definition store (k v : string) (s : State) : State :=
  match window s with
  | Some w =>
      if setItem_throws w then s
      else set_window {| getItem_throws := getItem_throws w;
                         setItem_throws := setItem_throws w;
                         sessionStorage := <[k:=v]> (sessionStorage w);
                         opened := opened w |} s
  | None => s
  end.

(** The state after [window.open(u)] inside a [try] whose [catch] is empty:
    the call is logged when there is a window, and nothing happens when
    there is none. *)
Definition log_open (u : string) (s : State) : State :=
  match window s with
  | Some w =>
      set_window {| getItem_throws := getItem_throws w;
                    setItem_throws := setItem_throws w;
                    sessionStorage := sessionStorage w;
                    opened := opened w ++ [u] |} s
  | None => s
  end.

(** The state once [proceed] has taken the pending record and cleared the
    slot. *)
Definition cleared (s : State) : State := exec (setInterstitialFor None) s.

(** The URLs opened so far. *)
Definition opened_urls (s : State) : list string :=
  match window s with
  | Some w => opened w
  | None => []
  end.

(** ** Relations between the state before and after a handler *)

(** Whatever [m] returns or raises, the state it leaves is related to the
    one it started from. *)
Definition preserves {A} (R : State -> State -> Prop) (m : M A) : Prop :=
  forall s, R s (exec m s).

(** A cursor that is not negative stays so. *)
Definition index_kept_nonneg (s s' : State) : Prop :=
  0 <= index s -> 0 <= index s'.

(** The environment keeps its kind, the storage keeps a gate flag that is
    set, and the log of opened URLs only grows. *)
Definition gate_kept (s s' : State) : Prop :=
  match window s, window s' with
  | None, None => True
  | Some w, Some w' =>
      getItem_throws w' = getItem_throws w /\
      setItem_throws w' = setItem_throws w /\
      (sessionStorage w !! onceKey = Some "1" ->
       sessionStorage w' !! onceKey = Some "1") /\
      opened w `prefix_of` opened w'
  | _, _ => False
  end.

(** The interstitial slot is left as it is. *)
Definition slot_kept (s s' : State) : Prop :=
  interstitialFor s' = interstitialFor s.

(** The gate flag is set and readable, and no interstitial is pending. *)
Definition settled (s : State) : Prop :=
  stored onceKey s = Some "1" /\ interstitialFor s = None.

(** There is a window whose session storage answers reads and accepts
    writes. *)
Definition storage_works (s : State) : Prop :=
  exists w, window s = Some w /\ getItem_throws w = false /\
            setItem_throws w = false.

(** What the specification asks of the link dispatcher, for an [openLink],
    a [proceed] and the runs of a page: an absent record or an empty url is
    a no-op; while the gate is not shown [openLink] makes the record pending
    and opens nothing; and once [proceed] has run on a pending record, in a
    browser whose session storage works, the gate reads as shown and every
    later [openLink] opens the record's url, that alone, with no
    interstitial. *)
Definition gated_dispatch (openLink : option Model -> M unit) (proceed : M unit)
    (run : list Event -> State -> State) : Prop :=
  (forall s, openLink None s = (Ok tt, s)) /\
  (forall s m, url m = "" -> openLink (Some m) s = (Ok tt, s)) /\
  (forall s m,
     url m <> "" -> outcome hasBeenShown s = Ok false ->
     let s' := exec (openLink (Some m)) s in
     outcome (openLink (Some m)) s = Ok tt /\
     s' = exec (setInterstitialFor (Some m)) s /\
     opened_urls s' = opened_urls s) /\
  (forall s m,
     storage_works s -> interstitialFor s = Some m -> url m <> "" ->
     let s1 := exec proceed s in
     outcome proceed s = Ok tt /\
     outcome hasBeenShown s1 = Ok true /\
     forall evs m',
       url m' <> "" ->
       let s2 := run evs s1 in
       let s3 := exec (openLink (Some m')) s2 in
       outcome (openLink (Some m')) s2 = Ok tt /\
       opened_urls s3 = (opened_urls s2 ++ [url m'])%list /\
       interstitialFor s3 = None).

(** ** The directory (lines 29-60 and 316-346)

    An entry of [RAW_MODELS] is a partial record; the normalisation also
    guards against an entry that is [null] or not an object, which is [None]
    here.  A [raw_tags] that is absent or not an array is [None]. *)
Record RawModel := {
  raw_name : option string;
  raw_url : option string;
  raw_image : option string;
  raw_tags : option (list string);
}.

(** [!!m && typeof m === "object"] *)
Definition is_object (m : option RawModel) : bool :=
  match m with
  | Some _ => true
  | None => false
  end.

(** The callback of [map], lines 54-59: [m?.name ?? "Unnamed"] and so on;
    [String] of a string is that string. *)
Definition normalize (m : option RawModel) : Model :=
  {| name := default "Unnamed" (m ≫= raw_name);
     url := default "#" (m ≫= raw_url);
     image := default "https://placehold.co/720x1280?text=Image+Missing%5Cn9:16"
                (m ≫= raw_image);
     tags := Some (default [] (m ≫= raw_tags)) |}.

(** [RAW_MODELS.filter(...).map(...)], lines 51-60. *)
Definition normalized (raw : list (option RawModel)) : list Model :=
  List.map normalize (List.filter is_object raw).

(** lines 29-48 *)
Definition RAW_MODELS : list (option RawModel) :=
  [ Some {| raw_name := Some "Charvi Bhatt";
            raw_url := Some "https://link-shortner-indol-nu.vercel.app/v0riwp";
            raw_image := Some "https://i.ibb.co/xqwpVcCB/IMG-20251110-003150-720.jpg";
            raw_tags := Some ["actress"; "biography"; "reels"] |};
    Some {| raw_name := Some "Arushi Chatterjee";
            raw_url := Some "https://link-shortner-indol-nu.vercel.app/gpvegn";
            raw_image := Some "https://i.ibb.co/5WrM1PSf/photo-2025-11-10-08-09-45.jpg";
            raw_tags := Some ["actress"; "bio"] |};
    Some {| raw_name := Some "Your Creator 3";
            raw_url := Some "#";
            raw_image := Some "https://placehold.co/720x1280?text=Creator+3%5Cn9:16";
            raw_tags := Some ["new"] |} ].


(** ** The runtime checks of lines 65-83

    What [useModelDataChecks] writes to the console, in order.  Its list is
    typed [ReadonlyArray<Model>], which leaves its branches for a list that
    is no array and for an entry that is no object without an input. *)
Inductive LogEntry :=
  | WarnEmpty                   (* console.warn: MODELS is empty *)
  | ErrorMissingName (i : nat)  (* console.error: Model at index i is missing name. *)
  | ErrorMissingUrl (i : nat)   (* console.error: Model at index i is missing url. *)
  | ErrorMissingImage (i : nat). (* console.error: Model at index i is missing image. *)

(** The body of the [forEach] callback, lines 74-77. *)
Definition check_model (i : nat) (m : Model) : list LogEntry :=
  (if negb (Js.truthy (name m)) then [ErrorMissingName i] else []) ++
  (if negb (Js.truthy (url m)) then [ErrorMissingUrl i] else []) ++
  (if negb (Js.truthy (image m)) then [ErrorMissingImage i] else []).

Definition useModelDataChecks (models : list Model) : list LogEntry :=
  (if (length models =? 0)%nat then [WarnEmpty] else []) ++
  concat (imap check_model models).

(** ** Kinds of events *)

#[global] Instance TouchEvent_eq_dec : EqDecision TouchEvent.
Proof. solve_decision. Defined.

#[global] Instance Event_eq_dec : EqDecision Event.
Proof. solve_decision. Defined.

(** The events that only move the cursor: wheel, keys, touch and the two
    arrow buttons, with the timer of the wheel lock. *)
Definition is_navigation (ev : Event) : bool :=
  match ev with
  | Wheel _ | WheelTimeout | KeyDown _ | TouchStart _ | TouchEnd _
  | ClickPrevious | ClickNext => true
  | Input _ | ClickOpen | ClickProceed | ClickClose => false
  end.

(** ** More relations between the state before and after a handler *)

(** Only the cursor, the wheel lock and the recorded touch coordinate may
    differ. *)
Definition page_kept (s s' : State) : Prop :=
  window s' = window s /\ query s' = query s /\
  interstitialFor s' = interstitialFor s.

(** The session storage differs at most under [onceKey], and there at most
    by the value "1". *)
Definition storage_kept (s s' : State) : Prop :=
  match window s, window s' with
  | None, None => True
  | Some w, Some w' =>
      (forall k, k <> onceKey ->
         sessionStorage w' !! k = sessionStorage w !! k) /\
      (sessionStorage w' !! onceKey = sessionStorage w !! onceKey \/
       sessionStorage w' !! onceKey = Some "1")
  | _, _ => False
  end.

(** A pending record has a url and is a record of the directory. *)
Definition pending_ok (models : list Model) (s : State) : Prop :=
  forall m, interstitialFor s = Some m -> url m <> "" /\ In m models.

(** [m] returns normally from every state. *)
Definition never_raises {A} (m : M A) : Prop :=
  forall s, exists a, outcome m s = Ok a.

(** * Properties *)

(** Unfolding the handlers of the page down to functions on the state. *)

Ltac unfold_monad :=
  unfold exec, outcome, mbind, mret, M_bind, M_ret, try_catch, get in *.

Ltac unfold_cells :=
  unfold next, prev, setIndex, setQuery, setInterstitialFor, set_wheelLock,
    set_touchY in *.

Ltac unfold_window :=
  unfold hasBeenShown, markShown, safeGetSession, safeSetSession,
    window_defined, sessionStorage_getItem, sessionStorage_setItem,
    window_open, set_window in *.

Ltac run_handler := unfold_window; unfold_cells; unfold_monad; simpl in *.

Section Properties.
Context {builtins : Js.Builtins}.

(** ** Strings *)

Lemma or_else_empty (s : string) : Js.or_else s "" = s.
Proof. by destruct s. Qed.

Lemma truthy_false (s : string) : Js.truthy s = false <-> s = "".
Proof. by destruct s. Qed.

Lemma truthy_true (s : string) : Js.truthy s = true <-> s <> "".
Proof. by destruct s. Qed.

(** Lower-casing keeps a string empty or not empty. *)
Lemma truthy_toLowerCase (s : string) :
  Js.truthy (Js.toLowerCase s) = Js.truthy s.
Proof.
  destruct (decide (s = "")) as [->|Hs].
  - by rewrite (proj2 (Js.toLowerCase_empty "") eq_refl).
  - rewrite (proj2 (truthy_true s) Hs). apply truthy_true.
    intros Hl. apply Hs. by apply Js.toLowerCase_empty.
Qed.

Lemma prefix_app (a b : string) :
  String.prefix a b = true <-> exists c, b = a +:+ c.
Proof.
  revert b. induction a as [|x a IH]; intros b.
  - destruct b; simpl; split; eauto.
  - destruct b as [|y b]; simpl.
    + split; [done | by intros [c Hc]].
    + destruct (ascii_dec x y) as [->|Hne].
      * rewrite IH. split; intros [c Hc]; exists c.
        -- by rewrite Hc.
        -- by injection Hc.
      * split; [done | intros [c Hc]; by injection Hc].
Qed.

Lemma includes_unfold (t q : string) :
  Js.includes t q =
  String.prefix q t ||
  match t with EmptyString => false | String _ t' => Js.includes t' q end.
Proof. by destruct t. Qed.

Lemma includes_app (t q : string) :
  Js.includes t q = true <-> exists pre post, t = pre +:+ q +:+ post.
Proof.
  induction t as [|c t IH]; rewrite includes_unfold, orb_true_iff, prefix_app.
  - split.
    + intros [[post H]|H]; [by exists "", post | done].
    + intros (pre & post & H). left. destruct pre; [by exists post | done].
  - rewrite IH. split.
    + intros [[post H]|(pre & post & H)].
      * by exists "", post.
      * exists (String c pre), post. by rewrite H.
    + intros (pre & post & H). destruct pre as [|c' pre].
      * left. by exists post.
      * right. exists pre, post. by injection H.
Qed.

(** The test of the source, which lower-cases both sides and looks for the
    one in the other, is the occurrence up to letter case. *)
Lemma includes_ci (q t : string) :
  Js.includes (Js.toLowerCase t) (Js.toLowerCase q) = true <-> ci_substring q t.
Proof. apply includes_app. Qed.

Lemma matches_record_matches (q : string) (m : Model) :
  matches (Js.toLowerCase q) m = true <-> record_matches q m.
Proof.
  unfold matches, record_matches, haystack.
  rewrite existsb_exists. split.
  - intros (t & [<-|Hin] & H); apply includes_ci in H; eauto.
  - intros [H|(t & Hin & H)]; apply includes_ci in H.
    + exists (name m). split; [by left | done].
    + exists t. split; [by right | done].
Qed.

(** ** Lists *)

Lemma filter_stable_selection {A} (p : A -> bool) (P : A -> Prop) (d : list A) :
  (forall x, p x = true <-> P x) -> stable_selection P d (List.filter p d).
Proof.
  intros Hp. induction d as [|x d IH]; simpl; [constructor |].
  destruct (p x) eqn:Hx.
  - apply selection_keep; [by apply Hp | done].
  - apply selection_drop; [|done]. rewrite <- Hp. congruence.
Qed.

Lemma stable_selection_unique {A} (P : A -> Prop) (d r r' : list A) :
  stable_selection P d r -> stable_selection P d r' -> r = r'.
Proof.
  intros H. revert r'. induction H; intros r' H'; inversion H'; subst;
    try done; f_equal; auto.
Qed.

Lemma stable_selection_sublist {A} (P : A -> Prop) (d r : list A) :
  stable_selection P d r -> sublist r d.
Proof. induction 1; by constructor. Qed.

Lemma stable_selection_In {A} (P : A -> Prop) (d r : list A) :
  stable_selection P d r -> forall x, In x r <-> In x d /\ P x.
Proof.
  induction 1 as [|y d r Hy H IH|y d r Hy H IH]; intros x; simpl.
  - tauto.
  - rewrite IH. split; [intros [<-|[? ?]]; auto | tauto].
  - rewrite IH. split; [tauto | intros [[<-|?] ?]; tauto].
Qed.

Lemma stable_selection_none {A} (P : A -> Prop) (d r : list A) :
  stable_selection P d r -> (forall x, In x d -> ~ P x) -> r = [].
Proof.
  induction 1 as [|y d r Hy H IH|y d r Hy H IH]; intros Hn; [done | |].
  - exfalso. apply (Hn y); simpl; auto.
  - apply IH. intros x Hx. apply Hn. simpl; auto.
Qed.

(** ** Filter engine *)

Lemma filtered_unfold (d : list Model) (query : string) :
  filtered d query =
  if negb (Js.truthy (Js.trim query)) then d
  else
    let result := List.filter (matches (Js.toLowerCase (Js.trim query))) d in
    if (0 <? length result)%nat then result else d.
Proof.
  unfold filtered. by rewrite or_else_empty, truthy_toLowerCase.
Qed.

Lemma filtered_empty_query (d : list Model) : filtered d "" = d.
Proof. rewrite filtered_unfold. by rewrite Js.trim_empty_string. Qed.

Lemma filtered_selection (d : list Model) (query : string) :
  Js.trim query <> "" ->
  stable_selection (record_matches (Js.trim query)) d
    (List.filter (matches (Js.toLowerCase (Js.trim query))) d).
Proof.
  intros _. apply filter_stable_selection. intros m. apply matches_record_matches.
Qed.

Lemma filtered_whitespace (d : list Model) (query : string) :
  Js.trim query = "" -> filtered d query = d.
Proof. intros H. rewrite filtered_unfold. by rewrite H. Qed.

Lemma filtered_some_match (d : list Model) (query : string) :
  Js.trim query <> "" ->
  (exists m, In m d /\ record_matches (Js.trim query) m) ->
  stable_selection (record_matches (Js.trim query)) d (filtered d query).
Proof.
  intros Hq (m & Hin & Hm). rewrite filtered_unfold.
  pose proof (filtered_selection d query Hq) as Hsel.
  apply truthy_true in Hq. rewrite Hq. simpl.
  destruct (List.filter _ d) as [|x r] eqn:Hf; [|done].
  exfalso.
  assert (Hx : In m []) by (apply (stable_selection_In _ _ _ Hsel); auto).
  destruct Hx.
Qed.

Lemma filtered_no_match (d : list Model) (query : string) :
  Js.trim query <> "" ->
  (forall m, In m d -> ~ record_matches (Js.trim query) m) ->
  filtered d query = d.
Proof.
  intros Hq Hnone. rewrite filtered_unfold.
  pose proof (filtered_selection d query Hq) as Hsel.
  apply truthy_true in Hq. rewrite Hq. simpl.
  by rewrite (stable_selection_none _ _ _ Hsel Hnone).
Qed.

(** C4 (amended): the empty query, and every query that [trim] reduces to
    the empty string (a query of white space alone), gives the directory
    back; for a query whose trimmed form is not empty, if some record's name
    or tag contains it up to letter case (lower-cased, it occurs in the
    lower-cased name or tag) then the result is exactly those records in the
    directory's order, and if no record does then the result is the
    directory.  This holds whatever the tables of [trim] and [toLowerCase]
    are. *)
Theorem filtered_spec (d : list Model) (query : string) :
  filtered d "" = d /\
  (Js.trim query = "" -> filtered d query = d) /\
  (Js.trim query <> "" ->
   (exists m, In m d /\ record_matches (Js.trim query) m) ->
   stable_selection (record_matches (Js.trim query)) d (filtered d query)) /\
  (Js.trim query <> "" ->
   (forall m, In m d -> ~ record_matches (Js.trim query) m) ->
   filtered d query = d).
Proof.
  split_and!.
  - apply filtered_empty_query.
  - apply filtered_whitespace.
  - apply filtered_some_match.
  - apply filtered_no_match.
Qed.

(** C5: when no record's name or tag contains the trimmed query, the filter
    returns the whole directory; the visible sequence is empty only for an
    empty directory. *)
Theorem filtered_fallback (d : list Model) (query : string) :
  ((forall m, In m d -> ~ record_matches (Js.trim query) m) ->
   filtered d query = d) /\
  (filtered d query = [] -> d = []).
Proof.
  split.
  - intros Hnone. destruct (decide (Js.trim query = "")) as [Hq|Hq].
    + by apply filtered_whitespace.
    + by apply filtered_no_match.
  - rewrite filtered_unfold. destruct (negb _); [done |]. simpl.
    by destruct (List.filter _ d).
Qed.

(** ** Navigation cursor *)

Lemma cycleLen_length (f : list Model) :
  1 <= Z.of_nat (length f) -> cycleLen f = Z.of_nat (length f).
Proof. unfold cycleLen. lia. Qed.

Lemma cycleLen_pos (f : list Model) : 1 <= cycleLen f.
Proof. unfold cycleLen. lia. Qed.

Lemma next_index_mod (L c : Z) :
  1 <= L -> 0 <= c -> next_index L c = (c + 1) mod L.
Proof. intros HL Hc. unfold next_index. apply Z.rem_mod_nonneg; lia. Qed.

Lemma prev_index_mod (L c : Z) :
  1 <= L -> 0 <= c -> prev_index L c = (c - 1 + L) mod L.
Proof. intros HL Hc. unfold prev_index. apply Z.rem_mod_nonneg; lia. Qed.

Lemma next_index_range (L c : Z) :
  1 <= L -> 0 <= c -> 0 <= next_index L c < L.
Proof. intros HL Hc. rewrite next_index_mod by lia. apply Z.mod_pos_bound. lia. Qed.

Lemma prev_index_range (L c : Z) :
  1 <= L -> 0 <= c -> 0 <= prev_index L c < L.
Proof. intros HL Hc. rewrite prev_index_mod by lia. apply Z.mod_pos_bound. lia. Qed.

Lemma mod_wrap (L x : Z) : 1 <= L -> 0 <= x < L -> (x + L) mod L = x.
Proof.
  intros HL Hx. replace (x + L) with (x + 1 * L) by lia.
  rewrite Z.mod_add by lia. apply Z.mod_small. lia.
Qed.

Lemma prev_next_index (L c : Z) :
  1 <= L -> 0 <= c < L -> prev_index L (next_index L c) = c.
Proof.
  intros HL Hc.
  rewrite prev_index_mod by (pose proof (next_index_range L c); lia).
  rewrite next_index_mod by lia.
  destruct (decide (c + 1 = L)) as [Heq|Hne].
  - rewrite Heq, Z.mod_same by lia.
    replace (0 - 1 + L) with (L - 1) by lia. rewrite Z.mod_small; lia.
  - rewrite (Z.mod_small (c + 1)) by lia.
    replace (c + 1 - 1 + L) with (c + L) by lia. apply mod_wrap; lia.
Qed.

Lemma next_prev_index (L c : Z) :
  1 <= L -> 0 <= c < L -> next_index L (prev_index L c) = c.
Proof.
  intros HL Hc.
  rewrite next_index_mod by (pose proof (prev_index_range L c); lia).
  rewrite prev_index_mod by lia.
  destruct (decide (c = 0)) as [Heq|Hne].
  - rewrite Heq. replace (0 - 1 + L) with (L - 1) by lia.
    rewrite (Z.mod_small (L - 1)) by lia.
    replace (L - 1 + 1) with L by lia. apply Z.mod_same. lia.
  - replace (c - 1 + L) with ((c - 1) + L) by lia.
    rewrite mod_wrap by lia.
    replace (c - 1 + 1) with c by lia. apply Z.mod_small. lia.
Qed.

(** C6: on a visible sequence of length L >= 1 and with the cursor in
    [0, L), [next] computes (c + 1) mod L and [prev] computes
    (c - 1 + L) mod L, and each undoes the other: the state after [next]
    then [prev], and after [prev] then [next], is the state before. *)
Theorem next_prev_inverse (f : list Model) (s : State) :
  let L := Z.of_nat (length f) in
  1 <= L -> 0 <= index s < L ->
  index (exec (next (cycleLen f)) s) = (index s + 1) mod L /\
  index (exec (prev (cycleLen f)) s) = (index s - 1 + L) mod L /\
  exec (prev (cycleLen f)) (exec (next (cycleLen f)) s) = s /\
  exec (next (cycleLen f)) (exec (prev (cycleLen f)) s) = s.
Proof.
  intros L HL Hc. rewrite (cycleLen_length f HL). fold L.
  destruct s as [i q m l t w]. run_handler.
  rewrite prev_next_index, next_prev_index by done.
  rewrite next_index_mod, prev_index_mod by lia. done.
Qed.

(** ** The clamp effect *)

Lemma modern_clamp_index (models : list Model) (s : State) :
  let L := Z.of_nat (length (filtered models (query s))) in
  let s' := exec (Modern.clamp_effect models) s in
  index s' = (if (0 <=? index s) && (index s <? L) then index s else 0) /\
  query s' = query s /\ interstitialFor s' = interstitialFor s /\
  wheelLock s' = wheelLock s /\ touchY s' = touchY s /\ window s' = window s.
Proof.
  intros L s'. subst s' L. unfold Modern.clamp_effect.
  destruct s as [i q m l t w]. run_handler.
  generalize (Z.of_nat (length (filtered models q))). intros L.
  destruct (Z.eqb_spec L 0); destruct (Z.eqb_spec i 0);
    destruct (Z.leb_spec L i); destruct (Z.ltb_spec i 0);
    destruct (Z.leb_spec 0 i); destruct (Z.ltb_spec i L);
    simpl; repeat split; lia.
Qed.

Lemma hardened_clamp_index (models : list Model) (s : State) :
  let L := Z.of_nat (length (filtered models (query s))) in
  let s' := exec (Hardened.clamp_effect models) s in
  index s' = (if index s <? L then index s else 0) /\
  query s' = query s /\ interstitialFor s' = interstitialFor s /\
  wheelLock s' = wheelLock s /\ touchY s' = touchY s /\ window s' = window s.
Proof.
  intros L s'. subst s' L. unfold Hardened.clamp_effect.
  destruct s as [i q m l t w]. run_handler.
  generalize (Z.of_nat (length (filtered models q))). intros L.
  destruct (Z.leb_spec L i); destruct (Z.ltb_spec i L);
    simpl; repeat split; lia.
Qed.

Lemma modern_clamp_in_range (models : list Model) (s : State) :
  in_range models (exec (Modern.clamp_effect models) s).
Proof.
  destruct (modern_clamp_index models s) as (Hi & Hq & _).
  unfold in_range. rewrite Hi, Hq. unfold cycleLen.
  destruct (0 <=? index s) eqn:H3; destruct (index s <? _) eqn:H4; simpl; lia.
Qed.

Lemma hardened_clamp_in_range (models : list Model) (s : State) :
  0 <= index s -> in_range models (exec (Hardened.clamp_effect models) s).
Proof.
  intros Hs. destruct (hardened_clamp_index models s) as (Hi & Hq & _).
  unfold in_range. rewrite Hi, Hq. unfold cycleLen.
  destruct (index s <? _) eqn:H4; lia.
Qed.

(** ** Session gate: what the two helpers compute *)

Lemma safeGetSession_run (k : string) (s : State) :
  safeGetSession k s = (Ok (stored k s), s).
Proof.
  unfold stored. run_handler.
  destruct (window s) as [w|] eqn:Hw; simpl; rewrite ?Hw; [|done].
  by destruct (getItem_throws w).
Qed.

Lemma safeSetSession_run (k v : string) (s : State) :
  safeSetSession k v s = (Ok tt, store k v s).
Proof.
  unfold store. run_handler.
  destruct (window s) as [w|] eqn:Hw; simpl; rewrite ?Hw; [|done].
  by destruct (setItem_throws w).
Qed.

Lemma hasBeenShown_run (s : State) :
  hasBeenShown s = (Ok (bool_decide (stored onceKey s = Some "1")), s).
Proof.
  unfold hasBeenShown. unfold_monad. by rewrite safeGetSession_run.
Qed.

(** ** Handlers and the relations they keep *)

Section Preservation.
Context (R : State -> State -> Prop).
Context (R_refl : forall s, R s s).
Context (R_trans : forall a b c, R a b -> R b c -> R a c).

Lemma preserves_ret {A} (a : A) : preserves R (mret a).
Proof. intros s. apply R_refl. Qed.

Lemma preserves_get {A} (proj : State -> A) : preserves R (get proj).
Proof. intros s. apply R_refl. Qed.

Lemma preserves_bind {A B} (m : M A) (k : A -> M B) :
  preserves R m -> (forall a, preserves R (k a)) -> preserves R (m ≫= k).
Proof.
  intros Hm Hk s. specialize (Hm s). unfold_monad.
  destruct (m s) as [[a|e] s1]; simpl in *; [|done].
  apply (R_trans _ _ _ Hm). apply (Hk a s1).
Qed.

Lemma preserves_try_catch {A} (m h : M A) :
  preserves R m -> preserves R h -> preserves R (try_catch m h).
Proof.
  intros Hm Hh s. specialize (Hm s). unfold_monad.
  destruct (m s) as [[a|e] s1]; simpl in *; [done |].
  apply (R_trans _ _ _ Hm). apply (Hh s1).
Qed.
End Preservation.

Lemma index_kept_nonneg_refl (s : State) : index_kept_nonneg s s.
Proof. by intros H. Qed.

Lemma index_kept_nonneg_trans (a b c : State) :
  index_kept_nonneg a b -> index_kept_nonneg b c -> index_kept_nonneg a c.
Proof. unfold index_kept_nonneg. auto. Qed.

Lemma gate_kept_refl (s : State) : gate_kept s s.
Proof. unfold gate_kept. by destruct (window s). Qed.

Lemma gate_kept_trans (a b c : State) :
  gate_kept a b -> gate_kept b c -> gate_kept a c.
Proof.
  unfold gate_kept.
  destruct (window a), (window b), (window c); try done.
  intros (H1 & H2 & H3 & H4) (H1' & H2' & H3' & H4').
  repeat split; [congruence | congruence | auto | by etrans].
Qed.

Lemma gate_kept_window (s s' : State) : window s' = window s -> gate_kept s s'.
Proof. intros H. unfold gate_kept. rewrite H. by destruct (window s). Qed.

(** Steps of a proof that a handler keeps a relation: the structure of the
    handler is followed, the leaves are left to the hints. *)
Ltac preserves_step R_refl R_trans :=
  match goal with
  | |- preserves _ (mret _) => apply (preserves_ret _ R_refl)
  | |- preserves _ (get _) => apply (preserves_get _ R_refl)
  | |- preserves _ (_ ≫= _) => apply (preserves_bind _ R_trans); [|intros ?]
  | |- preserves _ (try_catch _ _) => apply (preserves_try_catch _ R_trans)
  | |- preserves _ (if ?b then _ else _) => destruct b
  | |- preserves _ (match ?x with _ => _ end) => destruct x
  end.

Create HintDb cursor discriminated.
Create HintDb gate discriminated.

Ltac cursor_kept :=
  repeat (preserves_step index_kept_nonneg_refl index_kept_nonneg_trans);
  auto with cursor.

Ltac gate_is_kept :=
  repeat (preserves_step gate_kept_refl gate_kept_trans);
  auto with gate.

(** *** The cursor stays non-negative *)

Lemma setIndex_nonneg (f : Z -> Z) :
  (forall i, 0 <= i -> 0 <= f i) -> preserves index_kept_nonneg (setIndex f).
Proof. intros Hf s Hs. run_handler. auto. Qed.

Lemma next_nonneg (c : Z) : 1 <= c -> preserves index_kept_nonneg (next c).
Proof.
  intros Hc. apply setIndex_nonneg. intros i Hi.
  pose proof (next_index_range c i). lia.
Qed.

Lemma prev_nonneg (c : Z) : 1 <= c -> preserves index_kept_nonneg (prev c).
Proof.
  intros Hc. apply setIndex_nonneg. intros i Hi.
  pose proof (prev_index_range c i). lia.
Qed.

Lemma same_index_nonneg {A} (m : M A) :
  (forall s, index (exec m s) = index s) -> preserves index_kept_nonneg m.
Proof. intros H s Hs. by rewrite H. Qed.

Lemma setQuery_nonneg (q : string) : preserves index_kept_nonneg (setQuery q).
Proof. by apply same_index_nonneg. Qed.

Lemma setInterstitialFor_nonneg (m : option Model) :
  preserves index_kept_nonneg (setInterstitialFor m).
Proof. by apply same_index_nonneg. Qed.

Lemma set_wheelLock_nonneg (b : bool) : preserves index_kept_nonneg (set_wheelLock b).
Proof. by apply same_index_nonneg. Qed.

Lemma set_touchY_nonneg (y : option Z) : preserves index_kept_nonneg (set_touchY y).
Proof. by apply same_index_nonneg. Qed.

Lemma window_open_nonneg (u : string) : preserves index_kept_nonneg (window_open u).
Proof.
  apply same_index_nonneg. intros s. run_handler. by destruct (window s).
Qed.

Lemma safeGetSession_nonneg (k : string) :
  preserves index_kept_nonneg (safeGetSession k).
Proof.
  apply same_index_nonneg. intros s. unfold exec. by rewrite safeGetSession_run.
Qed.

Lemma safeSetSession_nonneg (k v : string) :
  preserves index_kept_nonneg (safeSetSession k v).
Proof.
  apply same_index_nonneg. intros s. unfold exec.
  rewrite safeSetSession_run. unfold store. simpl.
  destruct (window s) as [w|]; [|done]. by destruct (setItem_throws w).
Qed.

#[local] Hint Resolve setQuery_nonneg setInterstitialFor_nonneg
  set_wheelLock_nonneg set_touchY_nonneg window_open_nonneg
  safeGetSession_nonneg safeSetSession_nonneg : cursor.
#[local] Hint Extern 1 (preserves index_kept_nonneg (next _)) =>
  apply next_nonneg; apply cycleLen_pos : cursor.
#[local] Hint Extern 1 (preserves index_kept_nonneg (prev _)) =>
  apply prev_nonneg; apply cycleLen_pos : cursor.

Lemma hardened_handle_nonneg (u : option string) (models : list Model) (ev : Event) :
  preserves index_kept_nonneg (Hardened.handle u models ev).
Proof.
  destruct ev; unfold Hardened.handle, Hardened.openLink, Hardened.proceed,
    Hardened.onTouchEnd, Hardened.mount_cycleLen, onWheel, onTouchStart,
    hasBeenShown; cursor_kept.
Qed.

Lemma hardened_dispatch_in_range (u : option string) (models : list Model)
    (ev : Event) (s : State) :
  0 <= index s -> in_range models (Hardened.dispatch u models ev s).
Proof.
  intros Hs. apply hardened_clamp_in_range.
  by apply hardened_handle_nonneg.
Qed.

Lemma hardened_run_in_range (u : option string) (models : list Model)
    (evs : list Event) (s : State) :
  in_range models s -> in_range models (Hardened.run u models evs s).
Proof.
  revert s. induction evs as [|ev evs IH]; intros s Hs; [done |].
  simpl. apply IH. apply hardened_dispatch_in_range. apply Hs.
Qed.

Lemma initial_in_range (models : list Model) (w : option Window) :
  in_range models (initial w).
Proof. unfold in_range. simpl. pose proof (cycleLen_pos (filtered models "")). lia. Qed.

Lemma modern_run_in_range (u : option string) (models : list Model)
    (evs : list Event) (s : State) :
  in_range models s -> in_range models (Modern.run u models evs s).
Proof.
  revert s. induction evs as [|ev evs IH]; intros s Hs; [done |].
  simpl. apply IH. apply modern_clamp_in_range.
Qed.

(** C7 (amended): the effect of the Modern revision (lines 109-112) resets
    to 0 every cursor outside [0, L), a negative one too, and leaves the
    others; the effect of the Hardened revision (lines 375-377) resets to 0
    the cursors at or above L only, and leaves every other one, a negative
    one too, as it is.  After a filter edit, and after every other event,
    the cursor of the Modern page is within the visible sequence (0 on an
    empty one) whatever it was before; after its effect that of the
    Hardened page, which has no search box, is so provided it was not
    negative before, which is the case along every run of the page from its
    first render. *)
Theorem clamp_restores_range :
  (forall models s,
     let L := Z.of_nat (length (filtered models (query s))) in
     index (exec (Modern.clamp_effect models) s)
     = (if (0 <=? index s) && (index s <? L) then index s else 0)) /\
  (forall u models s value,
     let s' := Modern.dispatch u models (Input value) s in
     let L := Z.of_nat (length (filtered models value)) in
     query s' = value /\
     index s' = (if (0 <=? index s) && (index s <? L) then index s else 0) /\
     in_range models s') /\
  (forall u models ev s, in_range models (Modern.dispatch u models ev s)) /\
  (forall models s,
     let L := Z.of_nat (length (filtered models (query s))) in
     index (exec (Hardened.clamp_effect models) s)
     = (if index s <? L then index s else 0)) /\
  (forall models s,
     0 <= index s ->
     let s' := exec (Hardened.clamp_effect models) s in
     query s' = query s /\ in_range models s') /\
  (forall u models ev s,
     0 <= index s -> in_range models (Hardened.dispatch u models ev s)) /\
  (forall u models evs w, in_range models (Hardened.run u models evs (initial w))).
Proof.
  split_and!.
  - intros models s. apply modern_clamp_index.
  - intros u models s value s' L. subst s' L. unfold Modern.dispatch.
    set (s1 := exec (Modern.handle u models (Input value)) s).
    assert (Hq : query s1 = value) by done.
    assert (Hi : index s1 = index s) by done.
    destruct (modern_clamp_index models s1) as (Hi' & Hq' & _).
    rewrite Hq, Hi in Hi'. rewrite Hq in Hq'.
    split; [done |]. split; [done |].
    apply modern_clamp_in_range.
  - intros u models ev s. apply modern_clamp_in_range.
  - intros models s. apply hardened_clamp_index.
  - intros models s Hs s'. subst s'. split.
    + by destruct (hardened_clamp_index models s) as (_ & Hq & _).
    + by apply hardened_clamp_in_range.
  - intros u models ev s Hs. by apply hardened_dispatch_in_range.
  - intros u models evs w. apply hardened_run_in_range, initial_in_range.
Qed.

(** ** The gate flag is kept *)

Lemma same_window_gate {A} (m : M A) :
  (forall s, window (exec m s) = window s) -> preserves gate_kept m.
Proof. intros H s. by apply gate_kept_window. Qed.

Lemma setIndex_gate (f : Z -> Z) : preserves gate_kept (setIndex f).
Proof. by apply same_window_gate. Qed.

Lemma next_gate (c : Z) : preserves gate_kept (next c).
Proof. apply setIndex_gate. Qed.

Lemma prev_gate (c : Z) : preserves gate_kept (prev c).
Proof. apply setIndex_gate. Qed.

Lemma setQuery_gate (q : string) : preserves gate_kept (setQuery q).
Proof. by apply same_window_gate. Qed.

Lemma setInterstitialFor_gate (m : option Model) :
  preserves gate_kept (setInterstitialFor m).
Proof. by apply same_window_gate. Qed.

Lemma set_wheelLock_gate (b : bool) : preserves gate_kept (set_wheelLock b).
Proof. by apply same_window_gate. Qed.

Lemma set_touchY_gate (y : option Z) : preserves gate_kept (set_touchY y).
Proof. by apply same_window_gate. Qed.

Lemma safeGetSession_gate (k : string) : preserves gate_kept (safeGetSession k).
Proof.
  apply same_window_gate. intros s. unfold exec. by rewrite safeGetSession_run.
Qed.

Lemma hasBeenShown_gate : preserves gate_kept hasBeenShown.
Proof.
  apply same_window_gate. intros s. unfold exec. by rewrite hasBeenShown_run.
Qed.

Lemma window_open_gate (u : string) : preserves gate_kept (window_open u).
Proof.
  intros s. unfold gate_kept. run_handler.
  destruct (window s) as [w|] eqn:Hw; simpl; rewrite ?Hw; [|done].
  split_and!; [done | done | done |]. by apply prefix_app_r.
Qed.

(** The one write the page makes sets the flag. *)
Lemma markShown_gate : preserves gate_kept (safeSetSession onceKey "1").
Proof.
  intros s. unfold exec. rewrite safeSetSession_run. unfold gate_kept, store. simpl.
  destruct (window s) as [w|] eqn:Hw; rewrite ?Hw; [|done].
  destruct (setItem_throws w) eqn:Hthrow; simpl; rewrite ?Hw; [done |].
  split_and!; [done | done | | done]. intros _. apply lookup_insert_eq.
Qed.

#[local] Hint Resolve setIndex_gate next_gate prev_gate setQuery_gate
  setInterstitialFor_gate set_wheelLock_gate set_touchY_gate
  safeGetSession_gate hasBeenShown_gate window_open_gate markShown_gate : gate.

Lemma modern_clamp_gate (models : list Model) :
  preserves gate_kept (Modern.clamp_effect models).
Proof. unfold Modern.clamp_effect. gate_is_kept. Qed.

Lemma hardened_clamp_gate (models : list Model) :
  preserves gate_kept (Hardened.clamp_effect models).
Proof. unfold Hardened.clamp_effect. gate_is_kept. Qed.

Lemma modern_handle_gate (u : option string) (models : list Model) (ev : Event) :
  preserves gate_kept (Modern.handle u models ev).
Proof.
  destruct ev; unfold Modern.handle, Modern.openLink, Modern.proceed,
    Modern.dismiss, Modern.onKey, Modern.onTouchEnd, Modern.render_cycleLen,
    onWheel, onTouchStart; gate_is_kept.
Qed.

Lemma hardened_handle_gate (u : option string) (models : list Model) (ev : Event) :
  preserves gate_kept (Hardened.handle u models ev).
Proof.
  destruct ev; unfold Hardened.handle, Hardened.openLink, Hardened.proceed,
    Hardened.onTouchEnd, onWheel, onTouchStart; gate_is_kept.
Qed.

Lemma modern_run_gate (u : option string) (models : list Model)
    (evs : list Event) (s : State) :
  gate_kept s (Modern.run u models evs s).
Proof.
  revert s. induction evs as [|ev evs IH]; intros s; [apply gate_kept_refl |].
  simpl. eapply gate_kept_trans; [|apply IH].
  eapply gate_kept_trans; [apply modern_handle_gate | apply modern_clamp_gate].
Qed.

Lemma hardened_run_gate (u : option string) (models : list Model)
    (evs : list Event) (s : State) :
  gate_kept s (Hardened.run u models evs s).
Proof.
  revert s. induction evs as [|ev evs IH]; intros s; [apply gate_kept_refl |].
  simpl. eapply gate_kept_trans; [|apply IH].
  eapply gate_kept_trans; [apply hardened_handle_gate | apply hardened_clamp_gate].
Qed.

Lemma shown_stored (s : State) :
  outcome hasBeenShown s = Ok true <-> stored onceKey s = Some "1".
Proof.
  unfold outcome. rewrite hasBeenShown_run. simpl.
  split.
  - intros H. injection H as H. by apply bool_decide_eq_true in H.
  - intros H. by rewrite bool_decide_eq_true_2.
Qed.

Lemma gate_kept_stored (s s' : State) :
  gate_kept s s' -> stored onceKey s = Some "1" -> stored onceKey s' = Some "1".
Proof.
  unfold gate_kept, stored.
  destruct (window s) as [w|], (window s') as [w'|]; try done.
  intros (H1 & _ & H3 & _). rewrite H1.
  destruct (getItem_throws w); [done | auto].
Qed.

Lemma gate_kept_shown (s s' : State) :
  gate_kept s s' ->
  outcome hasBeenShown s = Ok true -> outcome hasBeenShown s' = Ok true.
Proof. rewrite !shown_stored. apply gate_kept_stored. Qed.

(** ** Session gate *)

Lemma window_open_run (u : string) (s : State) :
  window_open u s =
  match window s with
  | Some _ => (Ok tt, log_open u s)
  | None => (Throw ReferenceError, s)
  end.
Proof. unfold window_open, log_open. by destruct (window s). Qed.

Lemma guarded_open_run (u : string) (s : State) :
  try_catch (window_open u) (mret tt) s = (Ok tt, log_open u s).
Proof.
  unfold try_catch. rewrite window_open_run. unfold log_open.
  by destruct (window s).
Qed.

Lemma raw_getItem_throws (k : string) (s : State) (e : JsError) :
  outcome (sessionStorage_getItem k) s = Throw e -> stored k s = None.
Proof.
  unfold outcome, sessionStorage_getItem, stored.
  destruct (window s) as [w|]; [|done]. by destruct (getItem_throws w).
Qed.

Lemma raw_setItem_throws (k v : string) (s : State) (e : JsError) :
  outcome (sessionStorage_setItem k v) s = Throw e -> store k v s = s.
Proof.
  unfold outcome, sessionStorage_setItem, store.
  destruct (window s) as [w|]; [|done]. by destruct (setItem_throws w).
Qed.

(** C8: the two helpers always return normally.  Where there is no window,
    or [getItem] raises, the read gives [null] and [hasBeenShown] is false;
    where there is no window, or [setItem] raises, the write leaves the
    state as it was and [markShown] returns all the same. *)
Theorem session_gate_total (s : State) (k v : string) :
  (exists r, safeGetSession k s = (Ok r, s)) /\
  (exists s', safeSetSession k v s = (Ok tt, s')) /\
  (exists b, hasBeenShown s = (Ok b, s)) /\
  (exists s', markShown s = (Ok tt, s')) /\
  (window s = None ->
   outcome (safeGetSession k) s = Ok None /\
   outcome hasBeenShown s = Ok false /\
   exec (safeSetSession k v) s = s /\ exec markShown s = s) /\
  (forall e, outcome (sessionStorage_getItem k) s = Throw e ->
   outcome (safeGetSession k) s = Ok None) /\
  (forall e, outcome (sessionStorage_getItem onceKey) s = Throw e ->
   outcome hasBeenShown s = Ok false) /\
  (forall e, outcome (sessionStorage_setItem k v) s = Throw e ->
   safeSetSession k v s = (Ok tt, s)) /\
  (forall e, outcome (sessionStorage_setItem onceKey "1") s = Throw e ->
   markShown s = (Ok tt, s)).
Proof.
  unfold markShown, outcome, exec.
  rewrite hasBeenShown_run, !safeGetSession_run, !safeSetSession_run. simpl.
  split_and!; eauto.
  - intros Hw. unfold stored, store. by rewrite Hw.
  - intros e He. by rewrite (raw_getItem_throws _ _ _ He).
  - intros e He. by rewrite (raw_getItem_throws _ _ _ He).
  - intros e He. by rewrite (raw_setItem_throws _ _ _ _ He).
  - intros e He. by rewrite (raw_setItem_throws _ _ _ _ He).
Qed.

(** ** Link dispatcher *)

Lemma adUrl_truthy (u : option string) : Js.truthy (adUrl u) = true.
Proof. unfold adUrl, Js.or_else. by destruct (Js.truthy (default "" u)) eqn:H. Qed.

Lemma shown_false_stored (s : State) :
  outcome hasBeenShown s = Ok false <-> stored onceKey s <> Some "1".
Proof.
  unfold outcome. rewrite hasBeenShown_run. simpl. split.
  - intros H. injection H as H. by apply bool_decide_eq_false in H.
  - intros H. by rewrite bool_decide_eq_false_2.
Qed.

Lemma stored_window (k v : string) (s : State) :
  stored k s = Some v ->
  exists w, window s = Some w /\ getItem_throws w = false /\
            sessionStorage w !! k = Some v.
Proof.
  unfold stored. destruct (window s) as [w|]; [|done].
  destruct (getItem_throws w) eqn:H; [done |]. eauto.
Qed.

Lemma opened_urls_log_open (u : string) (s : State) (w : Window) :
  window s = Some w -> opened_urls (log_open u s) = (opened_urls s ++ [u])%list.
Proof. intros Hw. unfold opened_urls, log_open. by rewrite Hw. Qed.

Lemma log_open_has_window (u : string) (s : State) :
  is_Some (window s) -> is_Some (window (log_open u s)).
Proof. intros [w Hw]. unfold log_open. rewrite Hw. by eexists. Qed.

Lemma store_has_window (k v : string) (s : State) :
  is_Some (window s) -> is_Some (window (store k v s)).
Proof.
  intros [w Hw]. unfold store. rewrite Hw.
  destruct (setItem_throws w); [by rewrite Hw | by eexists].
Qed.

Lemma cleared_window (s : State) : window (cleared s) = window s.
Proof. done. Qed.

Section Dispatcher.
Context (u : option string).

Lemma modern_openLink_absent (s : State) :
  Modern.openLink u None s = (Ok tt, s).
Proof. done. Qed.

Lemma modern_openLink_no_url (s : State) (m : Model) :
  url m = "" -> Modern.openLink u (Some m) s = (Ok tt, s).
Proof. intros H. unfold Modern.openLink. by rewrite H. Qed.

Lemma modern_openLink_pending (s : State) (m : Model) :
  url m <> "" -> stored onceKey s <> Some "1" ->
  Modern.openLink u (Some m) s = (Ok tt, exec (setInterstitialFor (Some m)) s).
Proof.
  intros Hu Hs. unfold Modern.openLink.
  apply truthy_true in Hu. rewrite Hu, adUrl_truthy. simpl.
  unfold mbind, M_bind. rewrite hasBeenShown_run.
  by rewrite bool_decide_eq_false_2.
Qed.

Lemma modern_openLink_direct (s : State) (m : Model) :
  url m <> "" -> stored onceKey s = Some "1" ->
  Modern.openLink u (Some m) s = (Ok tt, log_open (url m) s).
Proof.
  intros Hu Hs. unfold Modern.openLink.
  apply truthy_true in Hu. rewrite Hu, adUrl_truthy. simpl.
  unfold mbind, M_bind. rewrite hasBeenShown_run.
  rewrite bool_decide_eq_true_2 by done. simpl. apply guarded_open_run.
Qed.

Lemma hardened_openLink_absent (s : State) :
  Hardened.openLink u None s = (Ok tt, s).
Proof. done. Qed.

Lemma hardened_openLink_no_url (s : State) (m : Model) :
  url m = "" -> Hardened.openLink u (Some m) s = (Ok tt, s).
Proof. intros H. unfold Hardened.openLink. by rewrite H. Qed.

Lemma hardened_openLink_pending (s : State) (m : Model) :
  url m <> "" -> stored onceKey s <> Some "1" ->
  Hardened.openLink u (Some m) s = (Ok tt, exec (setInterstitialFor (Some m)) s).
Proof.
  intros Hu Hs. unfold Hardened.openLink.
  apply truthy_true in Hu. rewrite Hu, adUrl_truthy. simpl.
  unfold mbind, M_bind. rewrite hasBeenShown_run.
  by rewrite bool_decide_eq_false_2.
Qed.

Lemma hardened_openLink_direct (s : State) (m : Model) :
  url m <> "" -> stored onceKey s = Some "1" ->
  Hardened.openLink u (Some m) s = (Ok tt, log_open (url m) s).
Proof.
  intros Hu Hs. unfold Hardened.openLink.
  apply truthy_true in Hu. rewrite Hu, adUrl_truthy. simpl.
  unfold mbind, M_bind. rewrite hasBeenShown_run.
  rewrite bool_decide_eq_true_2 by done. simpl.
  rewrite window_open_run.
  by destruct (stored_window _ _ _ Hs) as (w & -> & _).
Qed.

Lemma modern_proceed_target (s : State) (m : Model) :
  interstitialFor s = Some m -> url m <> "" ->
  Modern.proceed u s =
  (Ok tt, log_open (url m) (store onceKey "1" (log_open (adUrl u) (cleared s)))).
Proof.
  intros Hm Hu. unfold Modern.proceed, cleared.
  apply truthy_true in Hu.
  unfold mbind, M_bind, get, exec. rewrite Hm. simpl.
  rewrite Hu, adUrl_truthy. simpl.
  rewrite guarded_open_run, safeSetSession_run. apply guarded_open_run.
Qed.

Lemma modern_proceed_no_target (s : State) :
  (interstitialFor s = None \/
   exists m, interstitialFor s = Some m /\ url m = "") ->
  Modern.proceed u s = (Ok tt, cleared s).
Proof.
  intros H. unfold Modern.proceed, cleared.
  unfold mbind, M_bind, get, exec.
  destruct H as [->|(m & -> & Hu)]; simpl; [done |]. by rewrite Hu.
Qed.

Lemma hardened_proceed_target (s : State) (w : Window) (m : Model) :
  window s = Some w -> interstitialFor s = Some m -> url m <> "" ->
  Hardened.proceed u s =
  (Ok tt, log_open (url m) (store onceKey "1" (log_open (adUrl u) (cleared s)))).
Proof.
  intros Hw Hm Hu. unfold Hardened.proceed.
  apply truthy_true in Hu.
  unfold mbind, M_bind, get. rewrite Hm. fold (cleared s).
  change (setInterstitialFor None s) with (Ok tt, cleared s).
  rewrite adUrl_truthy, Hu, window_open_run, cleared_window, Hw.
  rewrite safeSetSession_run, window_open_run.
  destruct (store_has_window onceKey "1" (log_open (adUrl u) (cleared s)))
    as [w' ->]; [|done].
  apply log_open_has_window. rewrite cleared_window, Hw. by eexists.
Qed.

Lemma hardened_proceed_no_target (s : State) (w : Window) :
  window s = Some w ->
  (interstitialFor s = None \/
   exists m, interstitialFor s = Some m /\ url m = "") ->
  Hardened.proceed u s =
  (Ok tt, store onceKey "1" (log_open (adUrl u) (cleared s))).
Proof.
  intros Hw H. unfold Hardened.proceed.
  unfold mbind, M_bind, get.
  change (setInterstitialFor None s) with (Ok tt, cleared s).
  rewrite adUrl_truthy, window_open_run, cleared_window, Hw.
  rewrite safeSetSession_run.
  destruct H as [->|(m & -> & Hu)]; [done |]. by rewrite Hu.
Qed.

(** Without a window the Hardened revision's [proceed] raises at the
    sponsor open. *)
Lemma hardened_proceed_no_window (s : State) :
  window s = None -> Hardened.proceed u s = (Throw ReferenceError, cleared s).
Proof.
  intros Hw. unfold Hardened.proceed.
  unfold mbind, M_bind, get.
  change (setInterstitialFor None s) with (Ok tt, cleared s).
  by rewrite adUrl_truthy, window_open_run, cleared_window, Hw.
Qed.
End Dispatcher.

(** *** The interstitial slot *)

Lemma slot_kept_refl (s : State) : slot_kept s s.
Proof. done. Qed.

Lemma slot_kept_trans (a b c : State) :
  slot_kept a b -> slot_kept b c -> slot_kept a c.
Proof. unfold slot_kept. congruence. Qed.

Create HintDb slot discriminated.

Ltac slot_is_kept :=
  repeat (preserves_step slot_kept_refl slot_kept_trans);
  auto with slot.

Lemma setIndex_slot (f : Z -> Z) : preserves slot_kept (setIndex f).
Proof. done. Qed.

Lemma next_slot (c : Z) : preserves slot_kept (next c).
Proof. done. Qed.

Lemma prev_slot (c : Z) : preserves slot_kept (prev c).
Proof. done. Qed.

Lemma setQuery_slot (q : string) : preserves slot_kept (setQuery q).
Proof. done. Qed.

Lemma set_wheelLock_slot (b : bool) : preserves slot_kept (set_wheelLock b).
Proof. done. Qed.

Lemma set_touchY_slot (y : option Z) : preserves slot_kept (set_touchY y).
Proof. done. Qed.

#[local] Hint Resolve setIndex_slot next_slot prev_slot setQuery_slot
  set_wheelLock_slot set_touchY_slot : slot.

Lemma modern_clamp_slot (models : list Model) :
  preserves slot_kept (Modern.clamp_effect models).
Proof. unfold Modern.clamp_effect. slot_is_kept. Qed.

Lemma hardened_clamp_slot (models : list Model) :
  preserves slot_kept (Hardened.clamp_effect models).
Proof. unfold Hardened.clamp_effect. slot_is_kept. Qed.

Lemma log_open_slot (v : string) (s : State) :
  interstitialFor (log_open v s) = interstitialFor s.
Proof. unfold log_open. by destruct (window s). Qed.

Lemma store_slot (k v : string) (s : State) :
  interstitialFor (store k v s) = interstitialFor s.
Proof.
  unfold store. destruct (window s) as [w|]; [|done].
  by destruct (setItem_throws w).
Qed.

Lemma preserves_slot {A} (m : M A) (s : State) :
  preserves slot_kept m -> interstitialFor (exec m s) = interstitialFor s.
Proof. intros H. apply H. Qed.

(** Once the gate is set and nothing is pending, no event brings an
    interstitial up. *)
Lemma modern_handle_settled (u : option string) (models : list Model)
    (ev : Event) (s : State) :
  settled s -> settled (exec (Modern.handle u models ev) s).
Proof.
  intros [Hst Hi]. split.
  { apply (gate_kept_stored s); [apply modern_handle_gate | done]. }
  rewrite <- Hi.
  destruct ev;
    try solve [apply preserves_slot;
               unfold Modern.handle, Modern.onKey, Modern.onTouchEnd,
                 Modern.render_cycleLen, onWheel, onTouchStart; slot_is_kept].
  - unfold Modern.handle, exec, mbind, M_bind, get.
    destruct (Modern.current models s) as [m|]; [|done].
    destruct (decide (url m = "")) as [Hu|Hu].
    + by rewrite modern_openLink_no_url.
    + rewrite modern_openLink_direct by done. apply log_open_slot.
  - unfold Modern.handle, exec, mbind, M_bind, get. by rewrite Hi.
  - unfold Modern.handle, exec, mbind, M_bind, get. by rewrite Hi.
Qed.

Lemma hardened_handle_settled (u : option string) (models : list Model)
    (ev : Event) (s : State) :
  settled s -> settled (exec (Hardened.handle u models ev) s).
Proof.
  intros [Hst Hi]. split.
  { apply (gate_kept_stored s); [apply hardened_handle_gate | done]. }
  rewrite <- Hi.
  destruct ev;
    try solve [apply preserves_slot;
               unfold Hardened.handle, Hardened.onTouchEnd, onWheel,
                 onTouchStart; slot_is_kept].
  - unfold Hardened.handle, exec, mbind, M_bind, get.
    destruct (Hardened.current models s) as [m|]; [|done].
    destruct (decide (url m = "")) as [Hu|Hu].
    + by rewrite hardened_openLink_no_url.
    + rewrite hardened_openLink_direct by done. apply log_open_slot.
  - unfold Hardened.handle, exec, mbind, M_bind, get. by rewrite Hi.
Qed.

Lemma modern_run_settled (u : option string) (models : list Model)
    (evs : list Event) (s : State) :
  settled s -> settled (Modern.run u models evs s).
Proof.
  revert s. induction evs as [|ev evs IH]; intros s Hs; [done |].
  simpl. apply IH. unfold Modern.dispatch.
  pose proof (modern_handle_settled u models ev s Hs) as [H1 H2].
  split.
  - apply (gate_kept_stored _ _ (modern_clamp_gate models _) H1).
  - by rewrite (modern_clamp_slot models _).
Qed.

Lemma hardened_run_settled (u : option string) (models : list Model)
    (evs : list Event) (s : State) :
  settled s -> settled (Hardened.run u models evs s).
Proof.
  revert s. induction evs as [|ev evs IH]; intros s Hs; [done |].
  simpl. apply IH. unfold Hardened.dispatch.
  pose proof (hardened_handle_settled u models ev s Hs) as [H1 H2].
  split.
  - apply (gate_kept_stored _ _ (hardened_clamp_gate models _) H1).
  - by rewrite (hardened_clamp_slot models _).
Qed.

(** *** The gate after [proceed] *)

Lemma exec_eq {A} (m : M A) (s s' : State) (r : Result A) :
  m s = (r, s') -> exec m s = s'.
Proof. unfold exec. by intros ->. Qed.

Lemma outcome_eq {A} (m : M A) (s s' : State) (r : Result A) :
  m s = (r, s') -> outcome m s = r.
Proof. unfold outcome. by intros ->. Qed.

Lemma stored_after_proceed (a v : string) (s : State) :
  storage_works s ->
  stored onceKey (log_open v (store onceKey "1" (log_open a (cleared s))))
  = Some "1".
Proof.
  intros (w & Hw & Hg & Hs).
  unfold stored, log_open, store, cleared, exec. simpl.
  rewrite Hw. simpl. rewrite Hs. simpl. rewrite Hg.
  apply lookup_insert_eq.
Qed.

Lemma settled_after_proceed (a v : string) (s : State) :
  storage_works s ->
  settled (log_open v (store onceKey "1" (log_open a (cleared s)))).
Proof.
  intros Hs. split; [by apply stored_after_proceed |].
  by rewrite log_open_slot, store_slot, log_open_slot.
Qed.

Lemma settled_direct_open (openLink : option Model -> M unit) (s : State) (m : Model) :
  settled s ->
  openLink (Some m) s = (Ok tt, log_open (url m) s) ->
  outcome (openLink (Some m)) s = Ok tt /\
  opened_urls (exec (openLink (Some m)) s) = (opened_urls s ++ [url m])%list /\
  interstitialFor (exec (openLink (Some m)) s) = None.
Proof.
  intros [Hst Hi] Hrun. unfold outcome, exec. rewrite Hrun. simpl.
  destruct (stored_window _ _ _ Hst) as (w & Hw & _).
  split; [done |]. split; [by apply (opened_urls_log_open _ _ w) |].
  by rewrite log_open_slot.
Qed.

(** C1 (amended): for both revisions, [openLink] on an absent record or an
    empty url changes nothing and opens nothing; while the gate is not shown
    it makes the record pending and opens nothing; and after [proceed] has
    run on a pending record in a browser whose session storage accepts the
    write and answers the read, [hasBeenShown] is true and every later
    [openLink] of the session opens exactly the record's url, with no
    interstitial. *)
Theorem link_dispatch_gated (u : option string) (models : list Model) :
  gated_dispatch (Modern.openLink u) (Modern.proceed u) (Modern.run u models) /\
  gated_dispatch (Hardened.openLink u) (Hardened.proceed u) (Hardened.run u models).
Proof.
  split.
  - split_and!.
    + apply modern_openLink_absent.
    + apply modern_openLink_no_url.
    + intros s m Hu Hs. cbv zeta. apply shown_false_stored in Hs.
      pose proof (modern_openLink_pending u s m Hu Hs) as Hrun.
      by rewrite (exec_eq _ _ _ _ Hrun), (outcome_eq _ _ _ _ Hrun).
    + intros s m Hw Hm Hu. cbv zeta.
      pose proof (modern_proceed_target u s m Hm Hu) as Hrun.
      rewrite (exec_eq _ _ _ _ Hrun), (outcome_eq _ _ _ _ Hrun).
      pose proof (settled_after_proceed (adUrl u) (url m) s Hw) as Hset.
      split; [done |]. split; [by apply shown_stored, Hset |].
      intros evs m' Hu'.
      pose proof (modern_run_settled u models evs _ Hset) as Hset2.
      apply (settled_direct_open (Modern.openLink u) _ m' Hset2).
      apply modern_openLink_direct; [done | apply Hset2].
  - split_and!.
    + apply hardened_openLink_absent.
    + apply hardened_openLink_no_url.
    + intros s m Hu Hs. cbv zeta. apply shown_false_stored in Hs.
      pose proof (hardened_openLink_pending u s m Hu Hs) as Hrun.
      by rewrite (exec_eq _ _ _ _ Hrun), (outcome_eq _ _ _ _ Hrun).
    + intros s m Hw Hm Hu. cbv zeta.
      pose proof (settled_after_proceed (adUrl u) (url m) s Hw) as Hset.
      destruct Hw as (w & Hw & _).
      pose proof (hardened_proceed_target u s w m Hw Hm Hu) as Hrun.
      rewrite (exec_eq _ _ _ _ Hrun), (outcome_eq _ _ _ _ Hrun).
      split; [done |]. split; [by apply shown_stored, Hset |].
      intros evs m' Hu'.
      pose proof (hardened_run_settled u models evs _ Hset) as Hset2.
      apply (settled_direct_open (Hardened.openLink u) _ m' Hset2).
      apply hardened_openLink_direct; [done | apply Hset2].
Qed.

(** *** The order of [proceed] *)

Lemma opened_urls_after_proceed (a v : string) (s : State) (w : Window) :
  window s = Some w ->
  opened_urls (log_open v (store onceKey "1" (log_open a (cleared s))))
  = (opened_urls s ++ [a; v])%list.
Proof.
  intros Hw. unfold opened_urls, log_open, store, cleared, exec. simpl.
  rewrite Hw. simpl.
  destruct (setItem_throws w); simpl; rewrite ?Hw; simpl;
    by rewrite <- app_assoc.
Qed.

Lemma opened_urls_after_sponsor (a : string) (s : State) (w : Window) :
  window s = Some w ->
  opened_urls (store onceKey "1" (log_open a (cleared s)))
  = (opened_urls s ++ [a])%list.
Proof.
  intros Hw. unfold opened_urls, log_open, store, cleared, exec. simpl.
  rewrite Hw. simpl.
  by destruct (setItem_throws w); simpl; rewrite ?Hw.
Qed.

Lemma stored_after_sponsor (a : string) (s : State) :
  storage_works s ->
  stored onceKey (store onceKey "1" (log_open a (cleared s))) = Some "1".
Proof.
  intros (w & Hw & Hg & Hs).
  unfold stored, log_open, store, cleared, exec. simpl.
  rewrite Hw. simpl. rewrite Hs. simpl. rewrite Hg.
  apply lookup_insert_eq.
Qed.

(** C2 (amended): from a pending record that has a url, [proceed] of either
    revision opens the sponsor URL, then marks the gate, then opens the
    record's url, and clears the slot.  When nothing is pending or the
    pending record has no url, the Hardened revision still opens the sponsor
    and marks the gate and skips the second open, whereas the Modern
    revision only clears the slot: nothing is opened and the gate is not
    marked. *)
Theorem proceed_order (u : option string) (s : State) (w : Window) :
  window s = Some w ->
  (forall m,
     interstitialFor s = Some m -> url m <> "" ->
     let s' := log_open (url m)
                 (store onceKey "1" (log_open (adUrl u) (cleared s))) in
     Modern.proceed u s = (Ok tt, s') /\
     Hardened.proceed u s = (Ok tt, s') /\
     opened_urls s' = (opened_urls s ++ [adUrl u; url m])%list /\
     interstitialFor s' = None /\
     (storage_works s -> stored onceKey s' = Some "1")) /\
  ((interstitialFor s = None \/
    exists m, interstitialFor s = Some m /\ url m = "") ->
   let s' := store onceKey "1" (log_open (adUrl u) (cleared s)) in
   Hardened.proceed u s = (Ok tt, s') /\
   opened_urls s' = (opened_urls s ++ [adUrl u])%list /\
   interstitialFor s' = None /\
   (storage_works s -> stored onceKey s' = Some "1") /\
   Modern.proceed u s = (Ok tt, cleared s) /\
   opened_urls (cleared s) = opened_urls s /\
   stored onceKey (cleared s) = stored onceKey s).
Proof.
  intros Hw. split.
  - intros m Hm Hu. cbv zeta. split_and!.
    + by apply modern_proceed_target.
    + by apply (hardened_proceed_target u s w).
    + by apply (opened_urls_after_proceed _ _ _ w).
    + by rewrite log_open_slot, store_slot, log_open_slot.
    + apply stored_after_proceed.
  - intros H. cbv zeta. split_and!.
    + by apply (hardened_proceed_no_target u s w).
    + by apply (opened_urls_after_sponsor _ _ w).
    + by rewrite store_slot, log_open_slot.
    + apply stored_after_sponsor.
    + by apply modern_proceed_no_target.
    + done.
    + done.
Qed.

(** *** The gate flag is monotone *)

(** C3: the close button of the interstitial only clears the slot: it writes
    nothing, so the gate reads as before, and a click dismissed while the
    gate was not shown brings the interstitial up again at the next
    [openLink], with nothing opened.  Along every run of the page, of either
    revision, a stored flag stays stored and a gate that reads as shown
    keeps reading as shown. *)
Theorem gate_monotone (u : option string) (models : list Model) :
  (forall s,
     Modern.dismiss s = (Ok tt, cleared s) /\
     window (exec Modern.dismiss s) = window s /\
     outcome hasBeenShown (exec Modern.dismiss s) = outcome hasBeenShown s) /\
  (forall s m m',
     url m <> "" -> url m' <> "" -> outcome hasBeenShown s = Ok false ->
     let s1 := exec (Modern.openLink u (Some m)) s in
     let s2 := exec Modern.dismiss s1 in
     let s3 := exec (Modern.openLink u (Some m')) s2 in
     interstitialFor s1 = Some m /\ interstitialFor s2 = None /\
     outcome hasBeenShown s2 = Ok false /\
     interstitialFor s3 = Some m' /\ opened_urls s3 = opened_urls s) /\
  (forall evs s,
     outcome hasBeenShown s = Ok true ->
     outcome hasBeenShown (Modern.run u models evs s) = Ok true) /\
  (forall evs s,
     outcome hasBeenShown s = Ok true ->
     outcome hasBeenShown (Hardened.run u models evs s) = Ok true) /\
  (forall evs s w,
     window s = Some w -> sessionStorage w !! onceKey = Some "1" ->
     (exists w', window (Modern.run u models evs s) = Some w' /\
                 sessionStorage w' !! onceKey = Some "1") /\
     (exists w', window (Hardened.run u models evs s) = Some w' /\
                 sessionStorage w' !! onceKey = Some "1")).
Proof.
  split_and!.
  - intros s. split_and!; [done | done |].
    unfold outcome. by rewrite !hasBeenShown_run.
  - intros s m m' Hu Hu' Hs. cbv zeta. apply shown_false_stored in Hs.
    pose proof (modern_openLink_pending u s m Hu Hs) as H1.
    rewrite (exec_eq _ _ _ _ H1).
    set (s2 := exec Modern.dismiss (exec (setInterstitialFor (Some m)) s)).
    assert (Hs2 : stored onceKey s2 <> Some "1") by done.
    pose proof (modern_openLink_pending u s2 m' Hu' Hs2) as H3.
    rewrite (exec_eq _ _ _ _ H3).
    split_and!; try done. by apply shown_false_stored.
  - intros evs s. apply gate_kept_shown, modern_run_gate.
  - intros evs s. apply gate_kept_shown, hardened_run_gate.
  - intros evs s w Hw Hflag. split.
    + pose proof (modern_run_gate u models evs s) as H.
      unfold gate_kept in H. rewrite Hw in H.
      destruct (window (Modern.run u models evs s)) as [w'|]; [|done].
      exists w'. split; [done |]. by apply H.
    + pose proof (hardened_run_gate u models evs s) as H.
      unfold gate_kept in H. rewrite Hw in H.
      destruct (window (Hardened.run u models evs s)) as [w'|]; [|done].
      exists w'. split; [done |]. by apply H.
Qed.

(** ** Touch gestures *)

Lemma modern_onTouchEnd_run (c y0 y : Z) (e : TouchEvent) (s : State) :
  touchY s = Some y0 -> head (changedTouches e) = Some y ->
  Modern.onTouchEnd c e s =
  if Z.abs (y - y0) <? 40 then (Ok tt, s)
  else (Ok tt, exec (set_touchY None)
                 (exec (if y - y0 <? 0 then next c else prev c) s)).
Proof.
  intros H0 Hy. unfold Modern.onTouchEnd. rewrite Hy.
  unfold mbind, M_bind, get. rewrite H0.
  destruct (Z.abs (y - y0) <? 40); [done |].
  by destruct (y - y0 <? 0).
Qed.

Lemma hardened_onTouchEnd_run (c y0 y : Z) (e : TouchEvent) (s : State) :
  touchY s = Some y0 -> head (changedTouches e) = Some y ->
  Hardened.onTouchEnd c e s =
  (Ok tt, exec (set_touchY None)
            (if 40 <? Z.abs (y - y0)
             then exec (if y - y0 <? 0 then next c else prev c) s
             else s)).
Proof.
  intros H0 Hy. unfold Hardened.onTouchEnd. rewrite Hy.
  unfold mbind, M_bind, get. rewrite H0.
  destruct (40 <? Z.abs (y - y0)); [|done].
  by destruct (y - y0 <? 0).
Qed.

(** C9 (amended): the vertical coordinate is recorded at touch-start; at
    touch-end the delta to it is taken and, in the Modern revision, [next]
    is run for a negative delta and [prev] otherwise when the absolute delta
    is at least 40, after which the recorded coordinate is reset, and below
    40 no navigation happens; in the Hardened revision [next] or [prev] is
    run only when the absolute delta exceeds 40, and the recorded coordinate
    is reset after every touch-end of a gesture. *)
Theorem touch_swipe (c y0 y : Z) (e0 e : TouchEvent) (s : State) :
  head (touches e0) = Some y0 -> head (changedTouches e) = Some y ->
  let s1 := exec (onTouchStart e0) s in
  let dy := y - y0 in
  touchY s1 = Some y0 /\
  (40 <= Z.abs dy -> dy < 0 ->
   exec (Modern.onTouchEnd c e) s1 = exec (set_touchY None) (exec (next c) s1)) /\
  (40 <= Z.abs dy -> 0 <= dy ->
   exec (Modern.onTouchEnd c e) s1 = exec (set_touchY None) (exec (prev c) s1)) /\
  (Z.abs dy < 40 ->
   index (exec (Modern.onTouchEnd c e) s1) = index s1) /\
  (40 < Z.abs dy -> dy < 0 ->
   exec (Hardened.onTouchEnd c e) s1 = exec (set_touchY None) (exec (next c) s1)) /\
  (40 < Z.abs dy -> 0 <= dy ->
   exec (Hardened.onTouchEnd c e) s1 = exec (set_touchY None) (exec (prev c) s1)) /\
  (Z.abs dy <= 40 ->
   exec (Hardened.onTouchEnd c e) s1 = exec (set_touchY None) s1) /\
  touchY (exec (Hardened.onTouchEnd c e) s1) = None.
Proof.
  intros H0 Hy s1 dy.
  assert (Hs1 : touchY s1 = Some y0) by (subst s1; unfold onTouchStart; by rewrite H0).
  pose proof (modern_onTouchEnd_run c y0 y e s1 Hs1 Hy) as Hm.
  pose proof (hardened_onTouchEnd_run c y0 y e s1 Hs1 Hy) as Hh.
  fold dy in Hm, Hh.
  rewrite (exec_eq _ _ _ _ Hh).
  split; [done |].
  split_and!.
  - intros Ha Hd. unfold exec at 1. rewrite Hm.
    destruct (Z.ltb_spec (Z.abs dy) 40); [lia |].
    destruct (Z.ltb_spec dy 0); [done | lia].
  - intros Ha Hd. unfold exec at 1. rewrite Hm.
    destruct (Z.ltb_spec (Z.abs dy) 40); [lia |].
    destruct (Z.ltb_spec dy 0); [lia | done].
  - intros Ha. unfold exec at 1. rewrite Hm.
    destruct (Z.ltb_spec (Z.abs dy) 40); [done | lia].
  - intros Ha Hd.
    destruct (Z.ltb_spec 40 (Z.abs dy)); [|lia].
    destruct (Z.ltb_spec dy 0); [done | lia].
  - intros Ha Hd.
    destruct (Z.ltb_spec 40 (Z.abs dy)); [|lia].
    destruct (Z.ltb_spec dy 0); [lia | done].
  - intros Ha.
    destruct (Z.ltb_spec 40 (Z.abs dy)); [lia | done].
  - done.
Qed.

(** ** The current record *)

Lemma index_array_total {A} (a : list A) (i : Z) :
  Js.index_array a i = None \/ exists x, Js.index_array a i = Some x /\ In x a.
Proof.
  unfold Js.index_array. destruct (0 <=? i); [|by left].
  destruct (a !! Z.to_nat i) as [x|] eqn:H; [|by left].
  right. exists x. split; [done |].
  apply list_elem_of_In. by apply list_elem_of_lookup_2 in H.
Qed.

Lemma index_array_in_range {A} (a : list A) (i : Z) :
  is_Some (Js.index_array a i) <-> 0 <= i < Z.of_nat (length a).
Proof.
  unfold Js.index_array. destruct (Z.leb_spec 0 i) as [Hi|Hi].
  - rewrite lookup_lt_is_Some. lia.
  - split; [by intros [x Hx] | lia].
Qed.

Lemma modern_current_index (models : list Model) (s : State) :
  Modern.current models s = Js.index_array (filtered models (query s)) (index s).
Proof.
  unfold Modern.current. destruct (filtered models (query s)) as [|m f] eqn:Hf.
  - simpl. unfold Js.index_array. by destruct (0 <=? index s).
  - done.
Qed.

(** C10: whatever integer the cursor holds, the current record of either
    revision is [null] or a record of the visible sequence: it is a record
    exactly when the cursor is within the sequence.  On an empty visible
    sequence it is [null], and the page draws its empty state. *)
Theorem current_total (models : list Model) (s : State) :
  let f := filtered models (query s) in
  (Modern.current models s = None \/
   exists m, Modern.current models s = Some m /\ In m f) /\
  (Hardened.current models s = None \/
   exists m, Hardened.current models s = Some m /\ In m f) /\
  Modern.current models s = Hardened.current models s /\
  (is_Some (Modern.current models s) <-> 0 <= index s < Z.of_nat (length f)) /\
  (f = [] ->
   Modern.current models s = None /\
   Modern.reel models s = EmptyState "No creators match your search." /\
   Hardened.current models s = None /\
   Hardened.reel models s = EmptyState "No creators").
Proof.
  intros f. rewrite modern_current_index. unfold Hardened.current. fold f.
  split_and!.
  - apply index_array_total.
  - apply index_array_total.
  - done.
  - apply index_array_in_range.
  - intros Hf. unfold Modern.reel, Hardened.reel.
    rewrite modern_current_index. unfold Hardened.current. fold f.
    rewrite Hf. unfold Js.index_array. by destruct (0 <=? index s).
Qed.

(** * Further properties of the page *)

(** ** The visible sequence *)

Lemma filter_sublist {A} (p : A -> bool) (d : list A) : sublist (List.filter p d) d.
Proof.
  apply (stable_selection_sublist (fun x => p x = true)).
  by apply filter_stable_selection.
Qed.

Lemma sublist_In {A} (l d : list A) (x : A) : sublist l d -> In x l -> In x d.
Proof.
  induction 1 as [|y l d H IH|y l d H IH]; simpl; [done | |]; intuition.
Qed.

Lemma filtered_sublist (d : list Model) (query : string) :
  sublist (filtered d query) d.
Proof.
  rewrite filtered_unfold. destruct (negb _); [done |]. simpl.
  destruct (0 <? _)%nat; [apply filter_sublist | done].
Qed.

Lemma filtered_length (d : list Model) (query : string) :
  (length (filtered d query) <= length d)%nat.
Proof. apply sublist_length, filtered_sublist. Qed.

Lemma filtered_nil (d : list Model) (query : string) :
  filtered d query = [] -> d = [].
Proof.
  rewrite filtered_unfold. destruct (negb _); [done |]. simpl.
  by destruct (List.filter _ d).
Qed.

Lemma filtered_keeps_match (d : list Model) (query : string) (m : Model) :
  In m d -> record_matches (Js.trim query) m -> In m (filtered d query).
Proof.
  intros Hin Hm. destruct (decide (Js.trim query = "")) as [Hq|Hq].
  - by rewrite filtered_whitespace.
  - pose proof (filtered_some_match d query Hq) as Hsel.
    apply (stable_selection_In _ _ _ (Hsel (ex_intro _ m (conj Hin Hm)))).
    by split.
Qed.

(** X1: whatever the query, the visible sequence is a subsequence of the
    directory, in the directory's order, and a record whose name or tag
    contains the trimmed query up to letter case is never left out. *)
Theorem filtered_sound_complete (d : list Model) (query : string) :
  sublist (filtered d query) d /\
  (forall m, In m (filtered d query) -> In m d) /\
  (forall m, In m d -> record_matches (Js.trim query) m ->
             In m (filtered d query)).
Proof.
  split_and!.
  - apply filtered_sublist.
  - intros m. apply sublist_In, filtered_sublist.
  - apply filtered_keeps_match.
Qed.

(** ** The clamp effect reaches a fixed point *)

Lemma modern_clamp_fixed (models : list Model) (s : State) :
  in_range models s -> exec (Modern.clamp_effect models) s = s.
Proof.
  unfold in_range, cycleLen, Modern.clamp_effect.
  destruct s as [i q m l t w]. run_handler.
  pose proof (Nat2Z.is_nonneg (length (filtered models q))) as HL.
  revert HL. generalize (Z.of_nat (length (filtered models q))). intros L HL H.
  destruct (Z.eqb_spec L 0); destruct (Z.eqb_spec i 0);
    destruct (Z.leb_spec L i); destruct (Z.ltb_spec i 0);
    simpl; try done; lia.
Qed.

Lemma hardened_clamp_fixed (models : list Model) (s : State) :
  in_range models s -> exec (Hardened.clamp_effect models) s = s.
Proof.
  unfold in_range, cycleLen, Hardened.clamp_effect.
  destruct s as [i q m l t w]. run_handler.
  pose proof (Nat2Z.is_nonneg (length (filtered models q))) as HL.
  revert HL. generalize (Z.of_nat (length (filtered models q))). intros L HL H.
  destruct (Z.leb_spec L i); simpl; [|done].
  by replace i with 0 by lia.
Qed.

Lemma modern_clamp_idem (models : list Model) (s : State) :
  exec (Modern.clamp_effect models) (exec (Modern.clamp_effect models) s)
  = exec (Modern.clamp_effect models) s.
Proof. apply modern_clamp_fixed, modern_clamp_in_range. Qed.

Lemma hardened_clamp_idem (models : list Model) (s : State) :
  exec (Hardened.clamp_effect models) (exec (Hardened.clamp_effect models) s)
  = exec (Hardened.clamp_effect models) s.
Proof.
  unfold Hardened.clamp_effect.
  destruct s as [i q m l t w]. run_handler.
  destruct (_ <=? i) eqn:H1; simpl.
  - by destruct (_ <=? 0).
  - by rewrite H1.
Qed.

(** X2: the clamp effect of either revision reaches a fixed point in one run:
    run on its own result it changes nothing, so the render that its
    [setIndex] causes does not cause another; and it leaves alone a cursor
    that is within the visible sequence. *)
Theorem clamp_effect_settles (models : list Model) (s : State) :
  exec (Modern.clamp_effect models) (exec (Modern.clamp_effect models) s)
  = exec (Modern.clamp_effect models) s /\
  exec (Hardened.clamp_effect models) (exec (Hardened.clamp_effect models) s)
  = exec (Hardened.clamp_effect models) s /\
  (in_range models s ->
   exec (Modern.clamp_effect models) s = s /\
   exec (Hardened.clamp_effect models) s = s).
Proof.
  split_and!.
  - apply modern_clamp_idem.
  - apply hardened_clamp_idem.
  - intros H. split; [by apply modern_clamp_fixed | by apply hardened_clamp_fixed].
Qed.

(** ** The wheel lock *)

Lemma onWheel_locked (c d : Z) (s : State) :
  wheelLock s = true -> onWheel c d s = (Ok tt, s).
Proof. intros H. unfold onWheel, mbind, M_bind, get. by rewrite H. Qed.

Lemma onWheel_unlocked (c d : Z) (s : State) :
  wheelLock s = false ->
  onWheel c d s =
  (Ok tt, exec (if 10 <? d then next c else if d <? -10 then prev c else mret tt)
            (exec (set_wheelLock true) s)).
Proof.
  intros H. unfold onWheel, mbind, M_bind, get. rewrite H. simpl.
  destruct (10 <? d); [done |]. by destruct (d <? -10).
Qed.

Lemma onWheel_locks (c d : Z) (s : State) :
  wheelLock (exec (onWheel c d) s) = true.
Proof.
  destruct (wheelLock s) eqn:H.
  - by rewrite (exec_eq _ _ _ _ (onWheel_locked c d s H)).
  - rewrite (exec_eq _ _ _ _ (onWheel_unlocked c d s H)).
    destruct (10 <? d); [done |]. by destruct (d <? -10).
Qed.

Lemma modern_wheels_ignored (u : option string) (models : list Model)
    (ds : list Z) (s : State) :
  wheelLock s = true -> exec (Modern.clamp_effect models) s = s ->
  Modern.run u models (List.map Wheel ds) s = s.
Proof.
  intros Hl Hc. induction ds as [|d ds IH]; [done |]. simpl.
  unfold Modern.dispatch. simpl.
  by rewrite (exec_eq _ _ _ _ (onWheel_locked _ d s Hl)), Hc.
Qed.

Lemma hardened_wheels_ignored (u : option string) (models : list Model)
    (ds : list Z) (s : State) :
  wheelLock s = true -> exec (Hardened.clamp_effect models) s = s ->
  Hardened.run u models (List.map Wheel ds) s = s.
Proof.
  intros Hl Hc. induction ds as [|d ds IH]; [done |]. simpl.
  unfold Hardened.dispatch. simpl.
  by rewrite (exec_eq _ _ _ _ (onWheel_locked _ d s Hl)), Hc.
Qed.

(** X3: a wheel event always leaves the lock held, and while it is held wheel
    events change nothing: of a burst of wheel events only the first one
    counts, in either revision, until the timer releases the lock. *)
Theorem wheel_burst (u : option string) (models : list Model) (d : Z)
    (ds : list Z) (s : State) :
  Modern.run u models (Wheel d :: List.map Wheel ds) s
  = Modern.dispatch u models (Wheel d) s /\
  Hardened.run u models (Wheel d :: List.map Wheel ds) s
  = Hardened.dispatch u models (Wheel d) s /\
  wheelLock (Modern.dispatch u models (Wheel d) s) = true /\
  wheelLock (Hardened.dispatch u models (Wheel d) s) = true /\
  wheelLock (Modern.dispatch u models WheelTimeout s) = false /\
  wheelLock (Hardened.dispatch u models WheelTimeout s) = false.
Proof.
  assert (Hm : wheelLock (Modern.dispatch u models (Wheel d) s) = true).
  { unfold Modern.dispatch.
    destruct (modern_clamp_index models (exec (Modern.handle u models (Wheel d)) s))
      as (_ & _ & _ & -> & _).
    apply onWheel_locks. }
  assert (Hh : wheelLock (Hardened.dispatch u models (Wheel d) s) = true).
  { unfold Hardened.dispatch.
    destruct (hardened_clamp_index models (exec (Hardened.handle u models (Wheel d)) s))
      as (_ & _ & _ & -> & _).
    apply onWheel_locks. }
  split_and!; try done.
  - simpl. apply modern_wheels_ignored; [done | apply modern_clamp_idem].
  - simpl. apply hardened_wheels_ignored; [done | apply hardened_clamp_idem].
  - unfold Modern.dispatch.
    by destruct (modern_clamp_index models (exec (Modern.handle u models WheelTimeout) s))
      as (_ & _ & _ & -> & _).
  - unfold Hardened.dispatch.
    by destruct (hardened_clamp_index models (exec (Hardened.handle u models WheelTimeout) s))
      as (_ & _ & _ & -> & _).
Qed.

(** X4: the lock is taken before the delta is looked at: a wheel event whose
    delta is within 10 of zero moves nothing and still holds the lock, so
    the wheel event after it is ignored whatever its delta. *)
Theorem wheel_small_delta_locks (c d d' : Z) (s : State) :
  wheelLock s = false -> -10 <= d <= 10 ->
  exec (onWheel c d) s = exec (set_wheelLock true) s /\
  exec (onWheel c d') (exec (onWheel c d) s) = exec (set_wheelLock true) s.
Proof.
  intros Hl Hd.
  assert (H1 : exec (onWheel c d) s = exec (set_wheelLock true) s).
  { rewrite (exec_eq _ _ _ _ (onWheel_unlocked c d s Hl)).
    destruct (Z.ltb_spec 10 d); [lia |].
    destruct (Z.ltb_spec d (-10)); [lia | done]. }
  split; [done |]. rewrite H1.
  apply (exec_eq _ _ _ (Ok tt)). by apply onWheel_locked.
Qed.

(** ** The ring of the arrow buttons *)

Lemma modern_handle_next (u : option string) (models : list Model) (s : State) :
  exec (Modern.handle u models ClickNext) s
  = exec (next (cycleLen (filtered models (query s)))) s.
Proof. done. Qed.

Lemma modern_handle_prev (u : option string) (models : list Model) (s : State) :
  exec (Modern.handle u models ClickPrevious) s
  = exec (prev (cycleLen (filtered models (query s)))) s.
Proof. done. Qed.

Lemma next_in_range (models : list Model) (s : State) :
  0 <= index s ->
  in_range models (exec (next (cycleLen (filtered models (query s)))) s).
Proof.
  intros H. unfold in_range. simpl.
  apply next_index_range; [apply cycleLen_pos | done].
Qed.

Lemma prev_in_range (models : list Model) (s : State) :
  0 <= index s ->
  in_range models (exec (prev (cycleLen (filtered models (query s)))) s).
Proof.
  intros H. unfold in_range. simpl.
  apply prev_index_range; [apply cycleLen_pos | done].
Qed.

Lemma modern_click_next (u : option string) (models : list Model) (s : State) :
  0 <= index s ->
  Modern.dispatch u models ClickNext s
  = exec (next (cycleLen (filtered models (query s)))) s.
Proof.
  intros H. unfold Modern.dispatch. rewrite modern_handle_next.
  by apply modern_clamp_fixed, next_in_range.
Qed.

Lemma modern_click_prev (u : option string) (models : list Model) (s : State) :
  0 <= index s ->
  Modern.dispatch u models ClickPrevious s
  = exec (prev (cycleLen (filtered models (query s)))) s.
Proof.
  intros H. unfold Modern.dispatch. rewrite modern_handle_prev.
  by apply modern_clamp_fixed, prev_in_range.
Qed.

Lemma modern_next_presses (u : option string) (models : list Model) (k : nat)
    (s : State) :
  in_range models s ->
  index (Modern.run u models (replicate k ClickNext) s)
  = (index s + Z.of_nat k) mod cycleLen (filtered models (query s)).
Proof.
  revert s. induction k as [|k IH]; intros s Hs.
  - simpl. rewrite Z.add_0_r, Z.mod_small; [done | apply Hs].
  - simpl. rewrite modern_click_next by apply Hs.
    rewrite IH by (apply next_in_range, Hs). simpl.
    rewrite next_index_mod by (apply cycleLen_pos || apply Hs).
    rewrite Zplus_mod_idemp_l. f_equal. lia.
Qed.

Lemma modern_prev_presses (u : option string) (models : list Model) (k : nat)
    (s : State) :
  in_range models s ->
  index (Modern.run u models (replicate k ClickPrevious) s)
  = (index s - Z.of_nat k) mod cycleLen (filtered models (query s)).
Proof.
  revert s. induction k as [|k IH]; intros s Hs.
  - simpl. rewrite Z.sub_0_r, Z.mod_small; [done | apply Hs].
  - simpl. rewrite modern_click_prev by apply Hs.
    rewrite IH by (apply prev_in_range, Hs). simpl.
    rewrite prev_index_mod by (apply cycleLen_pos || apply Hs).
    set (c := cycleLen (filtered models (query s))).
    assert (Hc : 1 <= c) by apply cycleLen_pos.
    rewrite Zminus_mod_idemp_l.
    replace (index s - 1 + c - Z.of_nat k) with (index s - Z.of_nat (S k) + 1 * c) by lia.
    by rewrite Z.mod_add by lia.
Qed.

(** X5: the arrow buttons walk a ring.  From a cursor within the visible
    sequence, k clicks on Next lead to the card (cursor + k) mod L and k
    clicks on Previous to (cursor - k) mod L, where L is the length of the
    visible sequence (1 for an empty one); L clicks on either button lead
    back to the same card. *)
Theorem arrow_buttons_ring (u : option string) (models : list Model) (k : nat)
    (s : State) :
  in_range models s ->
  let c := cycleLen (filtered models (query s)) in
  index (Modern.run u models (replicate k ClickNext) s)
  = (index s + Z.of_nat k) mod c /\
  index (Modern.run u models (replicate k ClickPrevious) s)
  = (index s - Z.of_nat k) mod c /\
  index (Modern.run u models (replicate (Z.to_nat c) ClickNext) s) = index s /\
  index (Modern.run u models (replicate (Z.to_nat c) ClickPrevious) s) = index s.
Proof.
  intros Hs c. pose proof (cycleLen_pos (filtered models (query s))) as Hc.
  fold c in Hc. unfold in_range in Hs. fold c in Hs.
  rewrite !modern_next_presses, !modern_prev_presses by done. fold c.
  rewrite Z2Nat.id by lia.
  split_and!; [done | done | |].
  - replace (index s + c) with (index s + 1 * c) by lia.
    rewrite Z.mod_add by lia. apply Z.mod_small. lia.
  - replace (index s - c) with (index s + (-1) * c) by lia.
    rewrite Z.mod_add by lia. apply Z.mod_small. lia.
Qed.

(** ** Closures of the first render *)

Lemma State_eq (s s' : State) :
  index s = index s' -> query s = query s' ->
  interstitialFor s = interstitialFor s' -> wheelLock s = wheelLock s' ->
  touchY s = touchY s' -> window s = window s' -> s = s'.
Proof. destruct s, s'. simpl. by intros -> -> -> -> -> ->. Qed.

Lemma mount_cycleLen_models (models : list Model) :
  Modern.mount_cycleLen models = cycleLen models.
Proof. unfold Modern.mount_cycleLen. by rewrite filtered_empty_query. Qed.

Lemma modern_dispatch_fields (u : option string) (models : list Model)
    (ev : Event) (s : State) :
  let s' := exec (Modern.handle u models ev) s in
  let L := Z.of_nat (length (filtered models (query s'))) in
  index (Modern.dispatch u models ev s)
  = (if (0 <=? index s') && (index s' <? L) then index s' else 0) /\
  query (Modern.dispatch u models ev s) = query s' /\
  interstitialFor (Modern.dispatch u models ev s) = interstitialFor s' /\
  wheelLock (Modern.dispatch u models ev s) = wheelLock s' /\
  touchY (Modern.dispatch u models ev s) = touchY s' /\
  window (Modern.dispatch u models ev s) = window s'.
Proof. apply modern_clamp_index. Qed.

(** The cursor after a step to the next card under the modulus [c0] of the
    first render and under the modulus of the latest render agree once
    clamped. *)
Lemma stale_next_index (n L i : Z) :
  0 <= L <= n -> 0 <= i < Z.max L 1 ->
  (let j := next_index (Z.max n 1) i in
   if (0 <=? j) && (j <? L) then j else 0)
  = (let j := next_index (Z.max L 1) i in
     if (0 <=? j) && (j <? L) then j else 0).
Proof.
  intros HL Hi. cbv zeta. unfold next_index.
  destruct (decide (L = 0)) as [->|HL0].
  - assert (H1 : 0 <= (i + 1) `rem` Z.max n 1) by (apply Z.rem_nonneg; lia).
    assert (H2 : 0 <= (i + 1) `rem` Z.max 0 1) by (apply Z.rem_nonneg; lia).
    destruct (Z.ltb_spec ((i + 1) `rem` Z.max n 1) 0); [lia |].
    destruct (Z.ltb_spec ((i + 1) `rem` Z.max 0 1) 0); [lia |].
    by rewrite !andb_false_r.
  - replace (Z.max L 1) with L in * by lia.
    destruct (decide (i + 1 = L)) as [Heq|Hne].
    + rewrite Heq. rewrite (Z.rem_same L) by lia.
      destruct (decide (L = Z.max n 1)) as [<-|Hn].
      * by rewrite Z.rem_same by lia.
      * rewrite Z.rem_small by lia.
        destruct (Z.leb_spec 0 L), (Z.ltb_spec L L), (Z.ltb_spec 0 L);
          simpl; lia.
    + by rewrite !Z.rem_small by lia.
Qed.

Lemma stale_prev_index (n L i : Z) :
  0 <= L <= n -> 0 < i < Z.max L 1 ->
  prev_index (Z.max n 1) i = i - 1 /\ prev_index (Z.max L 1) i = i - 1.
Proof.
  intros HL Hi. rewrite !prev_index_mod by lia.
  replace (i - 1 + Z.max n 1) with ((i - 1) + Z.max n 1) by lia.
  replace (i - 1 + Z.max L 1) with ((i - 1) + Z.max L 1) by lia.
  rewrite !mod_wrap by lia. done.
Qed.

Lemma filtered_length_Z (models : list Model) (q : string) :
  0 <= Z.of_nat (length (filtered models q)) <= Z.of_nat (length models).
Proof. pose proof (filtered_length models q). lia. Qed.

Lemma modern_key_down (u : option string) (models : list Model) (s : State) :
  exec (Modern.handle u models (KeyDown "ArrowDown")) s
  = exec (next (cycleLen models)) s.
Proof. by rewrite <- mount_cycleLen_models. Qed.

Lemma modern_key_up (u : option string) (models : list Model) (s : State) :
  exec (Modern.handle u models (KeyDown "ArrowUp")) s
  = exec (prev (cycleLen models)) s.
Proof. by rewrite <- mount_cycleLen_models. Qed.

Lemma modern_advance_index (u : option string) (models : list Model)
    (ev : Event) (s : State) :
  in_range models s ->
  index (exec (Modern.handle u models ev) s)
  = next_index (cycleLen models) (index s) ->
  query (exec (Modern.handle u models ev) s) = query s ->
  index (Modern.dispatch u models ev s)
  = index (Modern.dispatch u models ClickNext s).
Proof.
  intros Hs Hi Hq.
  destruct (modern_dispatch_fields u models ev s) as (-> & _).
  destruct (modern_dispatch_fields u models ClickNext s) as (-> & _).
  rewrite Hi, Hq, modern_handle_next. simpl.
  apply (stale_next_index (Z.of_nat (length models))
           (Z.of_nat (length (filtered models (query s)))) (index s)).
  - apply filtered_length_Z.
  - apply Hs.
Qed.

(** X6: going forward, the handlers registered once at mount agree with the
    Next button under every filter.  From a cursor within the visible
    sequence, ArrowDown leaves the very state that a click on Next leaves,
    and a wheel event beyond +10 or an upward swipe of at least 40 moves the
    cursor to the same card: these handlers cycle over the whole directory,
    and the clamp effect brings an overshoot back to the first card. *)
Theorem advance_agrees_under_filter (u : option string) (models : list Model)
    (s : State) :
  in_range models s ->
  Modern.dispatch u models (KeyDown "ArrowDown") s
  = Modern.dispatch u models ClickNext s /\
  (forall d, wheelLock s = false -> 10 < d ->
     index (Modern.dispatch u models (Wheel d) s)
     = index (Modern.dispatch u models ClickNext s)) /\
  (forall e y0 y,
     touchY s = Some y0 -> head (changedTouches e) = Some y ->
     40 <= Z.abs (y - y0) -> y - y0 < 0 ->
     index (Modern.dispatch u models (TouchEnd e) s)
     = index (Modern.dispatch u models ClickNext s)).
Proof.
  intros Hs. split_and!.
  - destruct (modern_dispatch_fields u models (KeyDown "ArrowDown") s)
      as (_ & Hq & Hi & Hl & Ht & Hw).
    destruct (modern_dispatch_fields u models ClickNext s)
      as (_ & Hq' & Hi' & Hl' & Ht' & Hw').
    rewrite modern_key_down in Hq, Hi, Hl, Ht, Hw.
    rewrite modern_handle_next in Hq', Hi', Hl', Ht', Hw'.
    simpl in Hq, Hi, Hl, Ht, Hw, Hq', Hi', Hl', Ht', Hw'.
    apply State_eq; [| congruence ..].
    apply modern_advance_index; [done | by rewrite modern_key_down ..].
  - intros d Hl Hd.
    apply modern_advance_index; [done | |];
      unfold Modern.handle; rewrite mount_cycleLen_models.
    + rewrite (exec_eq _ _ _ _ (onWheel_unlocked _ d s Hl)).
      by destruct (Z.ltb_spec 10 d); [|lia].
    + rewrite (exec_eq _ _ _ _ (onWheel_unlocked _ d s Hl)).
      destruct (10 <? d); [done |]. by destruct (d <? -10).
  - intros e y0 y H0 Hy Ha Hd.
    pose proof (modern_onTouchEnd_run (cycleLen models) y0 y e s H0 Hy) as Hrun.
    destruct (Z.ltb_spec (Z.abs (y - y0)) 40) as [?|_]; [lia |].
    destruct (Z.ltb_spec (y - y0) 0) as [_|?]; [|lia].
    apply modern_advance_index; [done | |];
      unfold Modern.handle; rewrite mount_cycleLen_models;
      by rewrite (exec_eq _ _ _ _ Hrun).
Qed.

(** X7: going backward they do not.  From a cursor past the first card, or
    when the filter leaves the whole directory, ArrowUp leaves the state
    that a click on Previous leaves.  But on the first card of a visible
    sequence shorter than the directory, Previous wraps to the last visible
    card while ArrowUp steps to the last index of the directory, which the
    clamp effect resets: the cursor stays on the first card. *)
Theorem retreat_under_filter (u : option string) (models : list Model)
    (s : State) :
  in_range models s ->
  let L := Z.of_nat (length (filtered models (query s))) in
  let n := Z.of_nat (length models) in
  (0 < index s \/ L = n ->
   Modern.dispatch u models (KeyDown "ArrowUp") s
   = Modern.dispatch u models ClickPrevious s) /\
  (index s = 0 -> 1 <= L < n ->
   index (Modern.dispatch u models (KeyDown "ArrowUp") s) = 0 /\
   index (Modern.dispatch u models ClickPrevious s) = L - 1).
Proof.
  intros Hs L n.
  pose proof (filtered_length_Z models (query s)) as HL. fold L n in HL.
  unfold in_range, cycleLen in Hs. fold L in Hs.
  destruct (modern_dispatch_fields u models (KeyDown "ArrowUp") s)
    as (Hi & Hq & Hm & Hl & Ht & Hw).
  destruct (modern_dispatch_fields u models ClickPrevious s)
    as (Hi' & Hq' & Hm' & Hl' & Ht' & Hw').
  rewrite modern_key_up in Hi, Hq, Hm, Hl, Ht, Hw.
  rewrite modern_handle_prev in Hi', Hq', Hm', Hl', Ht', Hw'.
  simpl in Hi, Hi', Hq, Hm, Hl, Ht, Hw, Hq', Hm', Hl', Ht', Hw'.
  unfold cycleLen in Hi, Hi'. fold L n in Hi, Hi'.
  split.
  - intros Hcase. apply State_eq; [| congruence ..].
    rewrite Hi, Hi'. destruct Hcase as [Hpos|Heq].
    + destruct (stale_prev_index n L (index s)) as [-> ->]; [done | lia | done].
    + by rewrite Heq.
  - intros H0 Hn. rewrite Hi, Hi', H0. rewrite !prev_index_mod by lia.
    replace (0 - 1 + Z.max n 1) with (n - 1) by lia.
    replace (0 - 1 + Z.max L 1) with (L - 1) by lia.
    replace (Z.max n 1) with n by lia. replace (Z.max L 1) with L by lia.
    rewrite !Z.mod_small by lia.
    split.
    + destruct (Z.leb_spec 0 (n - 1)), (Z.ltb_spec (n - 1) L); simpl; lia.
    + destruct (Z.leb_spec 0 (L - 1)), (Z.ltb_spec (L - 1) L); simpl; lia.
Qed.

(** ** What navigation leaves alone *)

Lemma page_kept_refl (s : State) : page_kept s s.
Proof. done. Qed.

Lemma page_kept_trans (a b c : State) :
  page_kept a b -> page_kept b c -> page_kept a c.
Proof.
  unfold page_kept. intros (H1 & H2 & H3) (H1' & H2' & H3').
  split_and!; congruence.
Qed.

Create HintDb page discriminated.

Ltac page_is_kept :=
  repeat (preserves_step page_kept_refl page_kept_trans);
  auto with page.

Lemma setIndex_page (f : Z -> Z) : preserves page_kept (setIndex f).
Proof. done. Qed.

Lemma next_page (c : Z) : preserves page_kept (next c).
Proof. done. Qed.

Lemma prev_page (c : Z) : preserves page_kept (prev c).
Proof. done. Qed.

Lemma set_wheelLock_page (b : bool) : preserves page_kept (set_wheelLock b).
Proof. done. Qed.

Lemma set_touchY_page (y : option Z) : preserves page_kept (set_touchY y).
Proof. done. Qed.

#[local] Hint Resolve setIndex_page next_page prev_page set_wheelLock_page
  set_touchY_page : page.

Lemma modern_clamp_page (models : list Model) :
  preserves page_kept (Modern.clamp_effect models).
Proof. unfold Modern.clamp_effect. page_is_kept. Qed.

Lemma hardened_clamp_page (models : list Model) :
  preserves page_kept (Hardened.clamp_effect models).
Proof. unfold Hardened.clamp_effect. page_is_kept. Qed.

Lemma modern_navigation_page (u : option string) (models : list Model)
    (ev : Event) :
  is_navigation ev = true -> preserves page_kept (Modern.handle u models ev).
Proof.
  destruct ev; try done; intros _;
    unfold Modern.handle, Modern.onKey, Modern.onTouchEnd,
      Modern.render_cycleLen, onWheel, onTouchStart; page_is_kept.
Qed.

Lemma hardened_navigation_page (u : option string) (models : list Model)
    (ev : Event) :
  is_navigation ev = true -> preserves page_kept (Hardened.handle u models ev).
Proof.
  destruct ev; try done; intros _;
    unfold Hardened.handle, Hardened.onTouchEnd, onWheel, onTouchStart;
    page_is_kept.
Qed.

(** X8: wheel, key and touch events, the two arrow buttons and the timer of
    the wheel lock never open a URL, never touch the session storage, never
    change the query and never bring up or take down the interstitial, in
    either revision: the window, the query and the pending record are
    after the event what they were before. *)
Theorem navigation_moves_cursor_only (u : option string) (models : list Model)
    (ev : Event) (s : State) :
  is_navigation ev = true ->
  (window (Modern.dispatch u models ev s) = window s /\
   query (Modern.dispatch u models ev s) = query s /\
   interstitialFor (Modern.dispatch u models ev s) = interstitialFor s) /\
  (window (Hardened.dispatch u models ev s) = window s /\
   query (Hardened.dispatch u models ev s) = query s /\
   interstitialFor (Hardened.dispatch u models ev s) = interstitialFor s).
Proof.
  intros Hev. split.
  - apply (page_kept_trans _ (exec (Modern.handle u models ev) s)).
    + by apply modern_navigation_page.
    + apply modern_clamp_page.
  - apply (page_kept_trans _ (exec (Hardened.handle u models ev) s)).
    + by apply hardened_navigation_page.
    + apply hardened_clamp_page.
Qed.

(** ** The session storage and the log of opened URLs along a run *)

Lemma storage_kept_refl (s : State) : storage_kept s s.
Proof. unfold storage_kept. destruct (window s); [|done]. by split; [|left]. Qed.

Lemma storage_kept_trans (a b c : State) :
  storage_kept a b -> storage_kept b c -> storage_kept a c.
Proof.
  unfold storage_kept.
  destruct (window a), (window b), (window c); try done.
  intros (H1 & H2) (H1' & H2'). split.
  - intros k Hk. by rewrite H1', H1.
  - destruct H2' as [H2'|H2']; [rewrite H2'; exact H2 | by right].
Qed.

Lemma storage_kept_window (s s' : State) :
  window s' = window s -> storage_kept s s'.
Proof. intros H. unfold storage_kept. rewrite H. apply storage_kept_refl. Qed.

Create HintDb storage discriminated.

Ltac storage_is_kept :=
  repeat (preserves_step storage_kept_refl storage_kept_trans);
  auto with storage.

Lemma same_window_storage {A} (m : M A) :
  (forall s, window (exec m s) = window s) -> preserves storage_kept m.
Proof. intros H s. by apply storage_kept_window. Qed.

Lemma setIndex_storage (f : Z -> Z) : preserves storage_kept (setIndex f).
Proof. by apply same_window_storage. Qed.

Lemma next_storage (c : Z) : preserves storage_kept (next c).
Proof. apply setIndex_storage. Qed.

Lemma prev_storage (c : Z) : preserves storage_kept (prev c).
Proof. apply setIndex_storage. Qed.

Lemma setQuery_storage (q : string) : preserves storage_kept (setQuery q).
Proof. by apply same_window_storage. Qed.

Lemma setInterstitialFor_storage (m : option Model) :
  preserves storage_kept (setInterstitialFor m).
Proof. by apply same_window_storage. Qed.

Lemma set_wheelLock_storage (b : bool) : preserves storage_kept (set_wheelLock b).
Proof. by apply same_window_storage. Qed.

Lemma set_touchY_storage (y : option Z) : preserves storage_kept (set_touchY y).
Proof. by apply same_window_storage. Qed.

Lemma hasBeenShown_storage : preserves storage_kept hasBeenShown.
Proof.
  apply same_window_storage. intros s. unfold exec. by rewrite hasBeenShown_run.
Qed.

Lemma window_open_storage (v : string) : preserves storage_kept (window_open v).
Proof.
  intros s. unfold storage_kept, exec. rewrite window_open_run. unfold log_open.
  destruct (window s) as [w|] eqn:Hw; simpl; rewrite ?Hw; [|done].
  by split; [|left].
Qed.

Lemma markShown_storage : preserves storage_kept (safeSetSession onceKey "1").
Proof.
  intros s. unfold exec. rewrite safeSetSession_run.
  unfold storage_kept, store. simpl.
  destruct (window s) as [w|] eqn:Hw; rewrite ?Hw; [|done].
  destruct (setItem_throws w); simpl; rewrite ?Hw; [by split; [|left] |].
  split.
  - intros k Hk. by apply lookup_insert_ne.
  - right. apply lookup_insert_eq.
Qed.

#[local] Hint Resolve setIndex_storage next_storage prev_storage
  setQuery_storage setInterstitialFor_storage set_wheelLock_storage
  set_touchY_storage hasBeenShown_storage window_open_storage
  markShown_storage : storage.

Lemma modern_handle_storage (u : option string) (models : list Model) (ev : Event) :
  preserves storage_kept (Modern.handle u models ev).
Proof.
  destruct ev; unfold Modern.handle, Modern.openLink, Modern.proceed,
    Modern.dismiss, Modern.onKey, Modern.onTouchEnd, Modern.render_cycleLen,
    onWheel, onTouchStart; storage_is_kept.
Qed.

Lemma modern_clamp_storage (models : list Model) :
  preserves storage_kept (Modern.clamp_effect models).
Proof. unfold Modern.clamp_effect. storage_is_kept. Qed.

Lemma hardened_handle_storage (u : option string) (models : list Model) (ev : Event) :
  preserves storage_kept (Hardened.handle u models ev).
Proof.
  destruct ev; unfold Hardened.handle, Hardened.openLink, Hardened.proceed,
    Hardened.onTouchEnd, onWheel, onTouchStart; storage_is_kept.
Qed.

Lemma hardened_clamp_storage (models : list Model) :
  preserves storage_kept (Hardened.clamp_effect models).
Proof. unfold Hardened.clamp_effect. storage_is_kept. Qed.

Lemma modern_dispatch_storage (u : option string) (models : list Model)
    (ev : Event) (s : State) :
  storage_kept s (Modern.dispatch u models ev s).
Proof.
  apply (storage_kept_trans _ (exec (Modern.handle u models ev) s)).
  - apply modern_handle_storage.
  - apply modern_clamp_storage.
Qed.

Lemma hardened_dispatch_storage (u : option string) (models : list Model)
    (ev : Event) (s : State) :
  storage_kept s (Hardened.dispatch u models ev s).
Proof.
  apply (storage_kept_trans _ (exec (Hardened.handle u models ev) s)).
  - apply hardened_handle_storage.
  - apply hardened_clamp_storage.
Qed.

Lemma modern_run_storage (u : option string) (models : list Model)
    (evs : list Event) (s : State) :
  storage_kept s (Modern.run u models evs s).
Proof.
  revert s. induction evs as [|ev evs IH]; intros s; [apply storage_kept_refl |].
  simpl. eapply storage_kept_trans; [apply modern_dispatch_storage | apply IH].
Qed.

Lemma hardened_run_storage (u : option string) (models : list Model)
    (evs : list Event) (s : State) :
  storage_kept s (Hardened.run u models evs s).
Proof.
  revert s. induction evs as [|ev evs IH]; intros s; [apply storage_kept_refl |].
  simpl. eapply storage_kept_trans; [apply hardened_dispatch_storage | apply IH].
Qed.

(** X9: along every run of the page, of either revision, the session storage
    keeps the value of every key other than [onceKey], and under [onceKey]
    it holds what it held before or "1": the page writes nothing else and
    removes nothing. *)
Theorem storage_written_once_key_only (u : option string) (models : list Model)
    (evs : list Event) (s : State) (w : Window) :
  window s = Some w ->
  (exists w', window (Modern.run u models evs s) = Some w' /\
     (forall k, k <> onceKey -> sessionStorage w' !! k = sessionStorage w !! k) /\
     (sessionStorage w' !! onceKey = sessionStorage w !! onceKey \/
      sessionStorage w' !! onceKey = Some "1")) /\
  (exists w', window (Hardened.run u models evs s) = Some w' /\
     (forall k, k <> onceKey -> sessionStorage w' !! k = sessionStorage w !! k) /\
     (sessionStorage w' !! onceKey = sessionStorage w !! onceKey \/
      sessionStorage w' !! onceKey = Some "1")).
Proof.
  intros Hw. split.
  - pose proof (modern_run_storage u models evs s) as H.
    unfold storage_kept in H. rewrite Hw in H.
    destruct (window (Modern.run u models evs s)) as [w'|]; [|done].
    by exists w'.
  - pose proof (hardened_run_storage u models evs s) as H.
    unfold storage_kept in H. rewrite Hw in H.
    destruct (window (Hardened.run u models evs s)) as [w'|]; [|done].
    by exists w'.
Qed.

Lemma gate_kept_prefix (s s' : State) :
  gate_kept s s' ->
  opened_urls s `prefix_of` opened_urls s' /\
  (is_Some (window s) <-> is_Some (window s')).
Proof.
  unfold gate_kept, opened_urls.
  destruct (window s) as [w|], (window s') as [w'|]; try done.
  intros (_ & _ & _ & H). split; [done |]. split; by eexists.
Qed.

(** ** How many URLs an event opens *)

Lemma opened_urls_window (s s' : State) :
  window s' = window s -> opened_urls s' = opened_urls s.
Proof. unfold opened_urls. by intros ->. Qed.

Lemma opened_urls_log_open_le (v : string) (s : State) :
  exists l, opened_urls (log_open v s) = (opened_urls s ++ l)%list /\
            (length l <= 1)%nat.
Proof.
  unfold opened_urls, log_open. destruct (window s) as [w|] eqn:Hw; simpl.
  - exists [v]. split; [done | simpl; lia].
  - rewrite Hw. exists []. split; [done | simpl; lia].
Qed.

Lemma opened_urls_proceeded (a v : string) (s : State) :
  exists l,
    opened_urls (log_open v (store onceKey "1" (log_open a (cleared s))))
    = (opened_urls s ++ l)%list /\ (length l <= 2)%nat.
Proof.
  destruct (window s) as [w|] eqn:Hw.
  - exists [a; v]. split; [by apply (opened_urls_after_proceed _ _ _ w) | simpl; lia].
  - exists []. split; [|simpl; lia].
    unfold opened_urls, log_open, store, cleared, exec. simpl. by rewrite Hw.
Qed.

Lemma opened_urls_sponsored (a : string) (s : State) :
  exists l,
    opened_urls (store onceKey "1" (log_open a (cleared s)))
    = (opened_urls s ++ l)%list /\ (length l <= 2)%nat.
Proof.
  destruct (window s) as [w|] eqn:Hw.
  - exists [a]. split; [by apply (opened_urls_after_sponsor _ _ w) | simpl; lia].
  - exists []. split; [|simpl; lia].
    unfold opened_urls, log_open, store, cleared, exec. simpl. by rewrite Hw.
Qed.

Lemma no_open (s s' : State) (n : nat) :
  window s' = window s ->
  exists l, opened_urls s' = (opened_urls s ++ l)%list /\ (length l <= n)%nat.
Proof.
  intros H. exists []. rewrite app_nil_r. split; [by apply opened_urls_window |].
  simpl. lia.
Qed.

Lemma modern_quiet_events (u : option string) (models : list Model)
    (ev : Event) (s : State) :
  ev <> ClickOpen -> ev <> ClickProceed ->
  window (exec (Modern.handle u models ev) s) = window s.
Proof.
  intros H1 H2.
  destruct (is_navigation ev) eqn:Hnav.
  - by apply (modern_navigation_page u models ev Hnav s).
  - destruct ev; try done.
    unfold exec, Modern.handle, mbind, M_bind, get.
    by destruct (interstitialFor s).
Qed.

Lemma hardened_quiet_events (u : option string) (models : list Model)
    (ev : Event) (s : State) :
  ev <> ClickOpen -> ev <> ClickProceed ->
  window (exec (Hardened.handle u models ev) s) = window s.
Proof.
  intros H1 H2.
  destruct (is_navigation ev) eqn:Hnav.
  - by apply (hardened_navigation_page u models ev Hnav s).
  - by destruct ev.
Qed.

Lemma modern_open_opens (u : option string) (models : list Model) (s : State) :
  exists l, opened_urls (exec (Modern.handle u models ClickOpen) s)
            = (opened_urls s ++ l)%list /\ (length l <= 1)%nat.
Proof.
  unfold exec, Modern.handle, mbind, M_bind, get.
  destruct (Modern.current models s) as [m|]; [|by apply no_open].
  destruct (decide (url m = "")) as [Hu|Hu].
  - rewrite modern_openLink_no_url by done. by apply no_open.
  - destruct (decide (stored onceKey s = Some "1")) as [Hs|Hs].
    + rewrite modern_openLink_direct by done. apply opened_urls_log_open_le.
    + rewrite modern_openLink_pending by done. by apply no_open.
Qed.

Lemma hardened_open_opens (u : option string) (models : list Model) (s : State) :
  exists l, opened_urls (exec (Hardened.handle u models ClickOpen) s)
            = (opened_urls s ++ l)%list /\ (length l <= 1)%nat.
Proof.
  unfold exec, Hardened.handle, mbind, M_bind, get.
  destruct (Hardened.current models s) as [m|]; [|by apply no_open].
  destruct (decide (url m = "")) as [Hu|Hu].
  - rewrite hardened_openLink_no_url by done. by apply no_open.
  - destruct (decide (stored onceKey s = Some "1")) as [Hs|Hs].
    + rewrite hardened_openLink_direct by done. apply opened_urls_log_open_le.
    + rewrite hardened_openLink_pending by done. by apply no_open.
Qed.

Lemma modern_proceed_opens (u : option string) (models : list Model) (s : State) :
  exists l, opened_urls (exec (Modern.handle u models ClickProceed) s)
            = (opened_urls s ++ l)%list /\ (length l <= 2)%nat.
Proof.
  unfold exec, Modern.handle, mbind, M_bind, get.
  destruct (interstitialFor s) as [m|] eqn:Hm; [|by apply no_open].
  destruct (decide (url m = "")) as [Hu|Hu].
  - rewrite modern_proceed_no_target by eauto. by apply no_open.
  - rewrite (modern_proceed_target u s m) by done. apply opened_urls_proceeded.
Qed.

Lemma hardened_proceed_opens (u : option string) (models : list Model) (s : State) :
  exists l, opened_urls (exec (Hardened.handle u models ClickProceed) s)
            = (opened_urls s ++ l)%list /\ (length l <= 2)%nat.
Proof.
  unfold exec, Hardened.handle, mbind, M_bind, get.
  destruct (interstitialFor s) as [m|] eqn:Hm; [|by apply no_open].
  destruct (window s) as [w|] eqn:Hw.
  - destruct (decide (url m = "")) as [Hu|Hu].
    + rewrite (hardened_proceed_no_target u s w) by eauto.
      apply opened_urls_sponsored.
    + rewrite (hardened_proceed_target u s w m) by done.
      apply opened_urls_proceeded.
  - rewrite hardened_proceed_no_window by done. by apply no_open.
Qed.

(** X11: an event opens at most two URLs, and they come after those opened
    before.  Only a click on Proceed can open two, only a click on Open or
    on Proceed can open any; in either revision. *)
Theorem opens_per_event (u : option string) (models : list Model) (ev : Event)
    (s : State) :
  (exists l,
     opened_urls (Modern.dispatch u models ev s) = (opened_urls s ++ l)%list /\
     (length l <= 2)%nat /\
     (ev <> ClickProceed -> (length l <= 1)%nat) /\
     (ev <> ClickProceed -> ev <> ClickOpen -> l = [])) /\
  (exists l,
     opened_urls (Hardened.dispatch u models ev s) = (opened_urls s ++ l)%list /\
     (length l <= 2)%nat /\
     (ev <> ClickProceed -> (length l <= 1)%nat) /\
     (ev <> ClickProceed -> ev <> ClickOpen -> l = [])).
Proof.
  split.
  - unfold Modern.dispatch.
    rewrite (opened_urls_window _ _
               (proj2 (proj2 (proj2 (proj2 (proj2
                  (modern_clamp_index models
                     (exec (Modern.handle u models ev) s)))))))).
    destruct (decide (ev = ClickProceed)) as [->|Hp].
    + destruct (modern_proceed_opens u models s) as (l & Hl & Hn).
      exists l. by split_and!.
    + destruct (decide (ev = ClickOpen)) as [->|Ho].
      * destruct (modern_open_opens u models s) as (l & Hl & Hn).
        exists l. split_and!; [done | lia | done | done].
      * exists []. rewrite app_nil_r.
        split_and!; [|simpl; lia|simpl; lia|done].
        by apply opened_urls_window, modern_quiet_events.
  - unfold Hardened.dispatch.
    rewrite (opened_urls_window _ _
               (proj2 (proj2 (proj2 (proj2 (proj2
                  (hardened_clamp_index models
                     (exec (Hardened.handle u models ev) s)))))))).
    destruct (decide (ev = ClickProceed)) as [->|Hp].
    + destruct (hardened_proceed_opens u models s) as (l & Hl & Hn).
      exists l. by split_and!.
    + destruct (decide (ev = ClickOpen)) as [->|Ho].
      * destruct (hardened_open_opens u models s) as (l & Hl & Hn).
        exists l. split_and!; [done | lia | done | done].
      * exists []. rewrite app_nil_r.
        split_and!; [|simpl; lia|simpl; lia|done].
        by apply opened_urls_window, hardened_quiet_events.
Qed.

(** ** The pending record *)

Lemma index_array_In (models : list Model) (q : string) (i : Z) (m : Model) :
  Js.index_array (filtered models q) i = Some m -> In m models.
Proof.
  intros H. destruct (index_array_total (filtered models q) i) as [H'|(x & Hx & Hin)].
  - congruence.
  - rewrite H in Hx. injection Hx as <-.
    by apply (sublist_In _ _ _ (filtered_sublist models q)).
Qed.

Lemma modern_current_In (models : list Model) (s : State) (m : Model) :
  Modern.current models s = Some m -> In m models.
Proof. rewrite modern_current_index. apply index_array_In. Qed.

Lemma hardened_current_In (models : list Model) (s : State) (m : Model) :
  Hardened.current models s = Some m -> In m models.
Proof. apply index_array_In. Qed.

Lemma modern_handle_pending (u : option string) (models : list Model)
    (ev : Event) (s : State) :
  pending_ok models s -> pending_ok models (exec (Modern.handle u models ev) s).
Proof.
  intros Hs.
  destruct (is_navigation ev) eqn:Hnav.
  { destruct (modern_navigation_page u models ev Hnav s) as (_ & _ & Hi).
    unfold pending_ok. by rewrite Hi. }
  destruct ev; try done.
  - unfold exec, Modern.handle, mbind, M_bind, get.
    destruct (Modern.current models s) as [m|] eqn:Hc; [|done].
    destruct (decide (url m = "")) as [Hu|Hu].
    + by rewrite modern_openLink_no_url.
    + destruct (decide (stored onceKey s = Some "1")) as [Hst|Hst].
      * rewrite modern_openLink_direct by done.
        unfold pending_ok. simpl. by rewrite log_open_slot.
      * rewrite modern_openLink_pending by done.
        intros m' Hm'. injection Hm' as <-.
        split; [done | by apply (modern_current_In models s)].
  - unfold exec, Modern.handle, mbind, M_bind, get.
    destruct (interstitialFor s) as [m|] eqn:Hm; [|done].
    destruct (decide (url m = "")) as [Hu|Hu].
    + rewrite modern_proceed_no_target by eauto. by intros m' Hm'.
    + rewrite (modern_proceed_target u s m) by done.
      intros m' Hm'. simpl in Hm'.
        by rewrite log_open_slot, store_slot, log_open_slot in Hm'.
  - unfold exec, Modern.handle, mbind, M_bind, get.
    destruct (interstitialFor s) as [m|] eqn:Hm; [by intros m' Hm' | done].
Qed.

Lemma hardened_handle_pending (u : option string) (models : list Model)
    (ev : Event) (s : State) :
  pending_ok models s -> pending_ok models (exec (Hardened.handle u models ev) s).
Proof.
  intros Hs.
  destruct (is_navigation ev) eqn:Hnav.
  { destruct (hardened_navigation_page u models ev Hnav s) as (_ & _ & Hi).
    unfold pending_ok. by rewrite Hi. }
  destruct ev; try done.
  - unfold exec, Hardened.handle, mbind, M_bind, get.
    destruct (Hardened.current models s) as [m|] eqn:Hc; [|done].
    destruct (decide (url m = "")) as [Hu|Hu].
    + by rewrite hardened_openLink_no_url.
    + destruct (decide (stored onceKey s = Some "1")) as [Hst|Hst].
      * rewrite hardened_openLink_direct by done.
        unfold pending_ok. simpl. by rewrite log_open_slot.
      * rewrite hardened_openLink_pending by done.
        intros m' Hm'. injection Hm' as <-.
        split; [done | by apply (hardened_current_In models s)].
  - unfold exec, Hardened.handle, mbind, M_bind, get.
    destruct (interstitialFor s) as [m|] eqn:Hm; [|done].
    destruct (window s) as [w|] eqn:Hw.
    + destruct (decide (url m = "")) as [Hu|Hu].
      * rewrite (hardened_proceed_no_target u s w) by eauto.
        intros m' Hm'. simpl in Hm'.
        by rewrite store_slot, log_open_slot in Hm'.
      * rewrite (hardened_proceed_target u s w m) by done.
        intros m' Hm'. simpl in Hm'.
        by rewrite log_open_slot, store_slot, log_open_slot in Hm'.
    + rewrite hardened_proceed_no_window by done. by intros m' Hm'.
Qed.

Lemma modern_run_pending (u : option string) (models : list Model)
    (evs : list Event) (s : State) :
  pending_ok models s -> pending_ok models (Modern.run u models evs s).
Proof.
  revert s. induction evs as [|ev evs IH]; intros s Hs; [done |].
  simpl. apply IH. unfold Modern.dispatch, pending_ok.
  rewrite (modern_clamp_slot models _). by apply modern_handle_pending.
Qed.

Lemma hardened_run_pending (u : option string) (models : list Model)
    (evs : list Event) (s : State) :
  pending_ok models s -> pending_ok models (Hardened.run u models evs s).
Proof.
  revert s. induction evs as [|ev evs IH]; intros s Hs; [done |].
  simpl. apply IH. unfold Hardened.dispatch, pending_ok.
  rewrite (hardened_clamp_slot models _). by apply hardened_handle_pending.
Qed.

Lemma initial_pending (models : list Model) (w : option Window) :
  pending_ok models (initial w).
Proof. by intros m Hm. Qed.

(** X12: in every state the page reaches from its first render, in either
    revision, a pending record has a non-empty url and is a record of the
    directory: the interstitial never comes up for anything else. *)
Theorem pending_record_has_url (u : option string) (models : list Model)
    (evs : list Event) (w : option Window) (m : Model) :
  (interstitialFor (Modern.run u models evs (initial w)) = Some m ->
   url m <> "" /\ In m models) /\
  (interstitialFor (Hardened.run u models evs (initial w)) = Some m ->
   url m <> "" /\ In m models).
Proof.
  split.
  - apply (modern_run_pending u models evs _ (initial_pending models w)).
  - apply (hardened_run_pending u models evs _ (initial_pending models w)).
Qed.

(** X13: in a browser, whenever the page has a record pending, a click on
    Proceed opens exactly two URLs, the sponsor's and then the record's, and
    takes the interstitial down; the guard of line 135 never fires.  This
    holds in every state reached from the first render, in either
    revision. *)
Theorem proceed_opens_two (u : option string) (models : list Model)
    (evs : list Event) (w : Window) (m : Model) :
  (let s := Modern.run u models evs (initial (Some w)) in
   let s' := Modern.dispatch u models ClickProceed s in
   interstitialFor s = Some m ->
   opened_urls s' = (opened_urls s ++ [adUrl u; url m])%list /\
   interstitialFor s' = None) /\
  (let s := Hardened.run u models evs (initial (Some w)) in
   let s' := Hardened.dispatch u models ClickProceed s in
   interstitialFor s = Some m ->
   opened_urls s' = (opened_urls s ++ [adUrl u; url m])%list /\
   interstitialFor s' = None).
Proof.
  split.
  - intros s s' Hm. subst s'.
    destruct (modern_run_pending u models evs _ (initial_pending models (Some w)) m Hm)
      as [Hu _].
    destruct (gate_kept_prefix _ _ (modern_run_gate u models evs (initial (Some w))))
      as [_ [Hw _]].
    destruct Hw as [w' Hw']; [by eexists |]. fold s in Hw'.
    unfold Modern.dispatch.
    destruct (modern_clamp_index models (exec (Modern.handle u models ClickProceed) s))
      as (_ & _ & Hslot & _ & _ & Hwin).
    rewrite Hslot, (opened_urls_window _ _ Hwin).
    unfold exec, Modern.handle, mbind, M_bind, get. rewrite Hm.
    rewrite (modern_proceed_target u s m Hm Hu). simpl.
    split; [by apply (opened_urls_after_proceed _ _ _ w') |].
    by rewrite log_open_slot, store_slot, log_open_slot.
  - intros s s' Hm. subst s'.
    destruct (hardened_run_pending u models evs _ (initial_pending models (Some w)) m Hm)
      as [Hu _].
    destruct (gate_kept_prefix _ _ (hardened_run_gate u models evs (initial (Some w))))
      as [_ [Hw _]].
    destruct Hw as [w' Hw']; [by eexists |]. fold s in Hw'.
    unfold Hardened.dispatch.
    destruct (hardened_clamp_index models (exec (Hardened.handle u models ClickProceed) s))
      as (_ & _ & Hslot & _ & _ & Hwin).
    rewrite Hslot, (opened_urls_window _ _ Hwin).
    unfold exec, Hardened.handle, mbind, M_bind, get. rewrite Hm.
    rewrite (hardened_proceed_target u s w' m Hw' Hm Hu). simpl.
    split; [by apply (opened_urls_after_proceed _ _ _ w') |].
    by rewrite log_open_slot, store_slot, log_open_slot.
Qed.

(** ** Exceptions *)

Lemma never_raises_ret {A} (a : A) : never_raises (mret a).
Proof. intros s. by exists a. Qed.

Lemma never_raises_get {A} (proj : State -> A) : never_raises (get proj).
Proof. intros s. by eexists. Qed.

Lemma never_raises_bind {A B} (m : M A) (k : A -> M B) :
  never_raises m -> (forall a, never_raises (k a)) -> never_raises (m ≫= k).
Proof.
  intros Hm Hk s. destruct (Hm s) as [a Ha]. unfold_monad.
  destruct (m s) as [[a'|e] s1]; simpl in *; [|done]. apply (Hk a' s1).
Qed.

(** An empty [catch], or any handler that returns normally, stops every
    exception of the body. *)
Lemma never_raises_try_catch {A} (m h : M A) :
  never_raises h -> never_raises (try_catch m h).
Proof.
  intros Hh s. unfold_monad.
  destruct (m s) as [[a|e] s1]; simpl; [by exists a | apply (Hh s1)].
Qed.

Lemma never_raises_run {A} (m : M A) (f : State -> A) (g : State -> State) :
  (forall s, m s = (Ok (f s), g s)) -> never_raises m.
Proof. intros H s. exists (f s). unfold outcome. by rewrite H. Qed.

Lemma setIndex_never_raises (f : Z -> Z) : never_raises (setIndex f).
Proof. intros s. by exists tt. Qed.

Lemma setQuery_never_raises (q : string) : never_raises (setQuery q).
Proof. intros s. by exists tt. Qed.

Lemma setInterstitialFor_never_raises (m : option Model) :
  never_raises (setInterstitialFor m).
Proof. intros s. by exists tt. Qed.

Lemma set_wheelLock_never_raises (b : bool) : never_raises (set_wheelLock b).
Proof. intros s. by exists tt. Qed.

Lemma set_touchY_never_raises (y : option Z) : never_raises (set_touchY y).
Proof. intros s. by exists tt. Qed.

Lemma hasBeenShown_never_raises : never_raises hasBeenShown.
Proof. eapply never_raises_run. apply hasBeenShown_run. Qed.

Lemma safeSetSession_never_raises (k v : string) :
  never_raises (safeSetSession k v).
Proof.
  apply (never_raises_run _ (fun _ => tt) (store k v)). apply safeSetSession_run.
Qed.

Create HintDb raises discriminated.

#[local] Hint Resolve setIndex_never_raises setQuery_never_raises
  setInterstitialFor_never_raises set_wheelLock_never_raises
  set_touchY_never_raises hasBeenShown_never_raises
  safeSetSession_never_raises : raises.
#[local] Hint Extern 1 (never_raises (next _)) =>
  apply setIndex_never_raises : raises.
#[local] Hint Extern 1 (never_raises (prev _)) =>
  apply setIndex_never_raises : raises.

Ltac raises_step :=
  match goal with
  | |- never_raises (mret _) => apply never_raises_ret
  | |- never_raises (get _) => apply never_raises_get
  | |- never_raises (_ ≫= _) => apply never_raises_bind; [|intros ?]
  | |- never_raises (try_catch _ _) => apply never_raises_try_catch
  | |- never_raises (if ?b then _ else _) => destruct b
  | |- never_raises (match ?x with _ => _ end) => destruct x
  end.

Ltac raises_nothing := repeat raises_step; auto with raises.

Lemma modern_handle_never_raises (u : option string) (models : list Model)
    (ev : Event) :
  never_raises (Modern.handle u models ev).
Proof.
  destruct ev; unfold Modern.handle, Modern.openLink, Modern.proceed,
    Modern.dismiss, Modern.onKey, Modern.onTouchEnd, Modern.render_cycleLen,
    onWheel, onTouchStart; raises_nothing.
Qed.

Lemma outcome_unit (m : M unit) (s : State) :
  (exists a, outcome m s = Ok a) -> outcome m s = Ok tt.
Proof. by intros [[] H]. Qed.

(** X14: no handler of the Modern revision lets an exception out, whatever
    the environment (no window, a storage that raises): every [window.open]
    and every storage access sits in a [try] with an empty [catch] or
    behind the [typeof window] test.  In the Hardened revision the
    [window.open] calls are bare: without a window its [proceed] raises a
    ReferenceError at the sponsor open, after it has cleared the slot and
    before it marks the gate. *)
Theorem handlers_exceptions (u : option string) (models : list Model)
    (ev : Event) (s : State) :
  outcome (Modern.handle u models ev) s = Ok tt /\
  (window s = None -> is_Some (interstitialFor s) ->
   Hardened.handle u models ClickProceed s = (Throw ReferenceError, cleared s)).
Proof.
  split.
  - apply outcome_unit, modern_handle_never_raises.
  - intros Hw [m Hm]. unfold Hardened.handle, mbind, M_bind, get. rewrite Hm.
    by apply hardened_proceed_no_window.
Qed.

(** ** The empty state *)

Lemma in_range_current (models : list Model) (s : State) :
  models <> [] -> in_range models s ->
  exists m, Js.index_array (filtered models (query s)) (index s) = Some m /\
            In m models.
Proof.
  intros Hne Hs.
  assert (Hf : filtered models (query s) <> []) by (by intros H%filtered_nil).
  assert (Hr : is_Some (Js.index_array (filtered models (query s)) (index s))).
  { apply index_array_in_range. unfold in_range, cycleLen in Hs.
    destruct (filtered models (query s)); [done |]. simpl length in *. lia. }
  destruct Hr as [m Hm]. exists m. split; [done |].
  by apply (index_array_In models (query s) (index s)).
Qed.

Lemma filtered_of_nil (query : string) : filtered [] query = [].
Proof.
  pose proof (filtered_length [] query) as H.
  destruct (filtered [] query); [done | simpl in H; lia].
Qed.

Lemma reel_of_current (c : option Model) (text : string) :
  match c with Some m => Card m | None => EmptyState text end = EmptyState text
  <-> c = None.
Proof. destruct c; split; congruence. Qed.

Lemma index_array_none {A} (a : list A) (i : Z) :
  Js.index_array a i = None <-> ~ 0 <= i < Z.of_nat (length a).
Proof.
  rewrite <- index_array_in_range. rewrite <- eq_None_not_Some. done.
Qed.

(** X15: what the reel canvas draws.  A render draws the empty state exactly
    when the cursor it is made with is outside the visible sequence, as
    every cursor is on an empty one; the render that comes between a
    handler and the clamp effect may be such a render over a directory that
    has records.  Once the clamp effect has run, the Modern page draws the
    empty state for an empty directory only, and with a record in the
    directory it draws the card of one of them, whatever the event and the
    state the event found; so does the Hardened page in every state that a
    run of events and effects reaches from its first render. *)
Theorem card_always_shown (u : option string) (models : list Model) :
  (forall s,
     let L := Z.of_nat (length (filtered models (query s))) in
     (Modern.reel models s = EmptyState "No creators match your search."
      <-> ~ 0 <= index s < L) /\
     (Hardened.reel models s = EmptyState "No creators"
      <-> ~ 0 <= index s < L)) /\
  (forall ev s,
     (Modern.reel models (Modern.dispatch u models ev s)
      = EmptyState "No creators match your search." <-> models = []) /\
     (models <> [] ->
      exists m, Modern.reel models (Modern.dispatch u models ev s) = Card m /\
                In m models)) /\
  (forall evs w,
     (Hardened.reel models (Hardened.run u models evs (initial w))
      = EmptyState "No creators" <-> models = []) /\
     (models <> [] ->
      exists m, Hardened.reel models (Hardened.run u models evs (initial w))
                = Card m /\ In m models)).
Proof.
  assert (Hm : forall ev s, models <> [] ->
            exists m, Modern.reel models (Modern.dispatch u models ev s) = Card m /\
                      In m models).
  { intros ev s Hne.
    destruct (in_range_current models (Modern.dispatch u models ev s) Hne)
      as (m & Hm & Hin); [apply modern_clamp_in_range |].
    exists m. split; [|done].
    unfold Modern.reel. by rewrite modern_current_index, Hm. }
  assert (Hh : forall evs w, models <> [] ->
            exists m, Hardened.reel models (Hardened.run u models evs (initial w))
                      = Card m /\ In m models).
  { intros evs w Hne.
    destruct (in_range_current models (Hardened.run u models evs (initial w)) Hne)
      as (m & Hm' & Hin); [apply hardened_run_in_range, initial_in_range |].
    exists m. split; [|done].
    unfold Hardened.reel, Hardened.current. by rewrite Hm'. }
  split_and!.
  - intros s L. subst L. unfold Modern.reel, Hardened.reel.
    rewrite !reel_of_current, modern_current_index. unfold Hardened.current.
    by rewrite index_array_none.
  - intros ev s. split; [|by apply Hm]. split.
    + intros He. destruct (decide (models = [])) as [|Hne]; [done |].
      destruct (Hm ev s Hne) as (m & Hc & _). congruence.
    + intros ->. unfold Modern.reel.
      rewrite reel_of_current, modern_current_index, filtered_of_nil.
      unfold Js.index_array. by destruct (0 <=? _).
  - intros evs w. split; [|by apply Hh]. split.
    + intros He. destruct (decide (models = [])) as [|Hne]; [done |].
      destruct (Hh evs w Hne) as (m & Hc & _). congruence.
    + intros ->. unfold Hardened.reel.
      rewrite reel_of_current. unfold Hardened.current.
      rewrite filtered_of_nil.
      unfold Js.index_array. by destruct (0 <=? _).
Qed.

(** * The directory and its checks *)






(** ** The console *)

Lemma In_if_singleton {A} (b : bool) (x e : A) :
  In e (if b then [x] else []) <-> b = true /\ e = x.
Proof. destruct b; simpl; split; [intros [->|[]]; done | intros [_ ->]; auto | done | by intros [? _]]. Qed.

Lemma check_model_name (i j : nat) (m : Model) :
  In (ErrorMissingName j) (check_model i m) <-> j = i /\ name m = "".
Proof.
  unfold check_model.
  rewrite !in_app_iff, !In_if_singleton, !negb_true_iff, !truthy_false.
  split.
  - intros [[Hn H]|[[_ H]|[_ H]]]; try discriminate. by injection H as ->.
  - intros [-> Hn]. by left.
Qed.

Lemma check_model_url (i j : nat) (m : Model) :
  In (ErrorMissingUrl j) (check_model i m) <-> j = i /\ url m = "".
Proof.
  unfold check_model.
  rewrite !in_app_iff, !In_if_singleton, !negb_true_iff, !truthy_false.
  split.
  - intros [[_ H]|[[Hn H]|[_ H]]]; try discriminate. by injection H as ->.
  - intros [-> Hn]. right. by left.
Qed.

Lemma check_model_image (i j : nat) (m : Model) :
  In (ErrorMissingImage j) (check_model i m) <-> j = i /\ image m = "".
Proof.
  unfold check_model.
  rewrite !in_app_iff, !In_if_singleton, !negb_true_iff, !truthy_false.
  split.
  - intros [[_ H]|[[_ H]|[Hn H]]]; try discriminate. by injection H as ->.
  - intros [-> Hn]. right. by right.
Qed.

Lemma check_model_no_warning (i : nat) (m : Model) :
  ~ In WarnEmpty (check_model i m).
Proof.
  unfold check_model.
  rewrite !in_app_iff, !In_if_singleton.
  intros [[_ H]|[[_ H]|[_ H]]]; discriminate.
Qed.

Lemma check_model_nil (i : nat) (m : Model) :
  check_model i m = [] <-> name m <> "" /\ url m <> "" /\ image m <> "".
Proof.
  unfold check_model. rewrite <- !truthy_true.
  destruct (Js.truthy (name m)), (Js.truthy (url m)), (Js.truthy (image m));
    simpl; intuition discriminate.
Qed.

Lemma In_checks (e : LogEntry) (ms : list Model) :
  In e (concat (imap check_model ms)) <->
  exists i m, ms !! i = Some m /\ In e (check_model i m).
Proof.
  rewrite in_concat. split.
  - intros (l & Hl & He). apply list_elem_of_In, elem_of_lookup_imap in Hl.
    destruct Hl as (i & m & -> & Hm). eauto.
  - intros (i & m & Hm & He). exists (check_model i m). split; [|done].
    apply list_elem_of_In. by apply (elem_of_lookup_imap_2 _ _ _ i).
Qed.

Lemma checks_nil (ms : list Model) :
  concat (imap check_model ms) = [] <->
  forall m, In m ms -> name m <> "" /\ url m <> "" /\ image m <> "".
Proof.
  split.
  - intros H m Hm. apply list_elem_of_In, list_elem_of_lookup in Hm as [i Hi].
    apply (check_model_nil i). destruct (check_model i m) as [|e l] eqn:Hc; [done |].
    assert (He : In e (concat (imap check_model ms))).
    { apply In_checks. exists i, m. rewrite Hc. simpl. auto. }
    rewrite H in He. destruct He.
  - intros H. destruct (concat (imap check_model ms)) as [|e l] eqn:Hc; [done |].
    assert (He : In e (concat (imap check_model ms))) by (rewrite Hc; simpl; auto).
    apply In_checks in He as (i & m & Hm & He).
    assert (Hin : In m ms).
    { apply list_elem_of_In, list_elem_of_lookup. eauto. }
    apply H, (check_model_nil i) in Hin. rewrite Hin in He. destruct He.
Qed.

(** X17: the runtime checks are silent exactly for a directory that is not
    empty and whose records all have a non-empty name, url and image.  They
    warn exactly for an empty directory, and they report a missing name,
    url or image at index i exactly when the record at index i has that
    field empty. *)
Theorem useModelDataChecks_reports (ms : list Model) (i : nat) :
  (useModelDataChecks ms = [] <->
   ms <> [] /\
   forall m, In m ms -> name m <> "" /\ url m <> "" /\ image m <> "") /\
  (In WarnEmpty (useModelDataChecks ms) <-> ms = []) /\
  (In (ErrorMissingName i) (useModelDataChecks ms) <->
   exists m, ms !! i = Some m /\ name m = "") /\
  (In (ErrorMissingUrl i) (useModelDataChecks ms) <->
   exists m, ms !! i = Some m /\ url m = "") /\
  (In (ErrorMissingImage i) (useModelDataChecks ms) <->
   exists m, ms !! i = Some m /\ image m = "").
Proof.
  unfold useModelDataChecks. split_and!.
  - destruct ms as [|m0 ms].
    + simpl. split; [done | by intros [? _]].
    + change (length (m0 :: ms) =? 0)%nat with false. rewrite app_nil_l.
      rewrite checks_nil. split; [by split | by intros [_ ?]].
  - rewrite in_app_iff, In_checks. destruct ms as [|m0 ms].
    + simpl. split; [done | intros _; by left; left].
    + change (length (m0 :: ms) =? 0)%nat with false. split; [|done].
      intros [[]|(j & m & _ & H)]. by apply check_model_no_warning in H.
  - rewrite in_app_iff, In_checks. split.
    + intros [H|(j & m & Hm & H)].
      * destruct (length ms =? 0)%nat; simpl in H;
          [destruct H as [H|[]]; discriminate | destruct H].
      * apply check_model_name in H as [-> Hn]. eauto.
    + intros (m & Hm & Hn). right. exists i, m. split; [done |].
      by apply check_model_name.
  - rewrite in_app_iff, In_checks. split.
    + intros [H|(j & m & Hm & H)].
      * destruct (length ms =? 0)%nat; simpl in H;
          [destruct H as [H|[]]; discriminate | destruct H].
      * apply check_model_url in H as [-> Hn]. eauto.
    + intros (m & Hm & Hn). right. exists i, m. split; [done |].
      by apply check_model_url.
  - rewrite in_app_iff, In_checks. split.
    + intros [H|(j & m & Hm & H)].
      * destruct (length ms =? 0)%nat; simpl in H;
          [destruct H as [H|[]]; discriminate | destruct H].
      * apply check_model_image in H as [-> Hn]. eauto.
    + intros (m & Hm & Hn). right. exists i, m. split; [done |].
      by apply check_model_image.
Qed.

(** ** Defaults and checks together *)

Lemma In_normalized (raw : list (option RawModel)) (m : Model) :
  In m (normalized raw) <-> exists r, In (Some r) raw /\ m = normalize (Some r).
Proof.
  unfold normalized. rewrite in_map_iff. split.
  - intros (o & <- & Ho). apply filter_In in Ho as [Ho Hobj].
    destruct o as [r|]; [|done]. eauto.
  - intros (r & Hr & ->). exists (Some r). split; [done |].
    apply filter_In. by split.
Qed.

Lemma normalize_name_empty (r : RawModel) :
  name (normalize (Some r)) = "" <-> raw_name r = Some "".
Proof. simpl. destruct (raw_name r) as [n|]; simpl; [|done]. split; congruence. Qed.

Lemma normalize_url_empty (r : RawModel) :
  url (normalize (Some r)) = "" <-> raw_url r = Some "".
Proof. simpl. destruct (raw_url r) as [n|]; simpl; [|done]. split; congruence. Qed.

Lemma normalize_image_empty (r : RawModel) :
  image (normalize (Some r)) = "" <-> raw_image r = Some "".
Proof. simpl. destruct (raw_image r) as [n|]; simpl; [|done]. split; congruence. Qed.

Lemma checks_report_field (raw : list (option RawModel))
    (err : nat -> LogEntry) (field : Model -> string)
    (raw_field : RawModel -> option string) :
  (forall i, err i <> WarnEmpty) ->
  (forall i j m, In (err j) (check_model i m) <-> j = i /\ field m = "") ->
  (forall r, field (normalize (Some r)) = "" <-> raw_field r = Some "") ->
  (exists i, In (err i) (useModelDataChecks (normalized raw))) <->
  (exists r, In (Some r) raw /\ raw_field r = Some "").
Proof.
  intros Herr Hcheck Hfield. unfold useModelDataChecks. split.
  - intros (i & Hi). apply in_app_iff in Hi as [Hi|Hi].
    + exfalso. destruct (length _ =? 0)%nat; simpl in Hi; [|done].
      destruct Hi as [Hi|[]]. by apply (Herr i).
    + apply In_checks in Hi as (j & m & Hm & He).
      apply Hcheck in He as [-> Hf].
      assert (Hin : In m (normalized raw)).
      { apply list_elem_of_In, list_elem_of_lookup. eauto. }
      apply In_normalized in Hin as (r & Hr & ->).
      exists r. split; [done | by apply Hfield].
  - intros (r & Hr & Hf).
    assert (Hin : In (normalize (Some r)) (normalized raw)).
    { apply In_normalized. eauto. }
    apply list_elem_of_In, list_elem_of_lookup in Hin as [i Hi].
    exists i. apply in_app_iff. right. apply In_checks.
    exists i, (normalize (Some r)). split; [done |].
    apply Hcheck. split; [done | by apply Hfield].
Qed.

(** X18: the defaults keep the checks quiet about what is missing, not about
    what is empty.  On a normalised directory the checks report a missing
    name, url or image exactly when some entry of the raw list carries that
    field as the empty string: an absent field takes its default and is
    never reported. *)
Theorem checks_after_normalisation (raw : list (option RawModel)) :
  ((exists i, In (ErrorMissingName i) (useModelDataChecks (normalized raw))) <->
   (exists r, In (Some r) raw /\ raw_name r = Some "")) /\
  ((exists i, In (ErrorMissingUrl i) (useModelDataChecks (normalized raw))) <->
   (exists r, In (Some r) raw /\ raw_url r = Some "")) /\
  ((exists i, In (ErrorMissingImage i) (useModelDataChecks (normalized raw))) <->
   (exists r, In (Some r) raw /\ raw_image r = Some "")).
Proof.
  split_and!.
  - apply (checks_report_field raw ErrorMissingName name raw_name);
      [done | apply check_model_name | apply normalize_name_empty].
  - apply (checks_report_field raw ErrorMissingUrl url raw_url);
      [done | apply check_model_url | apply normalize_url_empty].
  - apply (checks_report_field raw ErrorMissingImage image raw_image);
      [done | apply check_model_image | apply normalize_image_empty].
Qed.

(** X19: a record entered without a url is not skipped by [openLink]: its
    url is the default "#", which is not empty, so the click goes to the
    interstitial while the gate is not shown and opens "#" once it is.  The
    no-url guard of [openLink] fires for a normalised record only if the
    raw entry carried the empty string as its url. *)
Theorem default_url_is_opened (u : option string) (r : RawModel) (s : State) :
  let m := normalize (Some r) in
  (raw_url r = None -> url m = "#") /\
  (Modern.openLink u (Some m) s = (Ok tt, s) /\ url m = "" <->
   raw_url r = Some "") /\
  (raw_url r <> Some "" ->
   Modern.openLink u (Some m) s
   = (Ok tt, if bool_decide (stored onceKey s = Some "1")
             then log_open (url m) s
             else exec (setInterstitialFor (Some m)) s)).
Proof.
  intros m. split_and!.
  - intros H. subst m. simpl. by rewrite H.
  - split.
    + intros [_ H]. by apply normalize_url_empty.
    + intros H. apply normalize_url_empty in H. fold m in H.
      split; [by apply modern_openLink_no_url | done].
  - intros H. assert (Hu : url m <> "") by (by intros Hu%normalize_url_empty).
    case_bool_decide as Hs.
    + by apply modern_openLink_direct.
    + by apply modern_openLink_pending.
Qed.

End Properties.

(** * Scenarios

    The properties above hold whatever the tables of [trim] and
    [toLowerCase] are.  The scenarios below run the page on concrete inputs,
    with the two built-ins restricted to ASCII ([Js.ascii_builtins]). *)

#[global] Existing Instance Js.ascii_builtins.

(** C4, as the claim has it, fails where no record matches: for the query
    "dog" the page's directory is returned whole, although none of its
    records contains "dog". *)
Lemma filtered_no_match_not_exact :
  Js.trim "dog" <> "" /\
  ~ stable_selection (record_matches (Js.trim "dog")) MODELS (filtered MODELS "dog").
Proof.
  split; [done |].
  intros H.
  assert (Hd : filtered MODELS "dog" = MODELS) by reflexivity.
  rewrite Hd in H. unfold MODELS in H.
  inversion H as [|x d r Hx _|x d r _ Hsel]; subst.
  - apply (matches_record_matches "dog") in Hx. vm_compute in Hx. discriminate.
  - apply stable_selection_sublist, sublist_length in Hsel. simpl in Hsel. lia.
Qed.

Lemma filtered_spec_witness :
  filtered MODELS "   " = MODELS /\
  stable_selection (record_matches (Js.trim " Bio ")) MODELS (filtered MODELS " Bio ") /\
  filtered MODELS "dog" = MODELS.
Proof.
  split; [|split].
  - apply (proj1 (proj2 (filtered_spec MODELS "   "))). reflexivity.
  - apply (proj1 (proj2 (proj2 (filtered_spec MODELS " Bio ")))); [done |].
    exists {| name := "Arushi Chatterjee";
              url := "https://link-shortner-indol-nu.vercel.app/gpvegn";
              image := "https://i.ibb.co/5WrM1PSf/photo-2025-11-10-08-09-45.jpg";
              tags := Some ["actress"; "bio"] |}.
    split; [simpl; auto |].
    right. exists "bio". split; [simpl; auto |].
    by exists "", "".
  - apply (proj2 (proj2 (proj2 (filtered_spec MODELS "dog")))); [done |].
    intros m Hm Hrec. apply (matches_record_matches "dog") in Hrec.
    simpl in Hm. by repeat destruct Hm as [<-|Hm].
Defined.

Lemma filtered_fallback_witness :
  filtered MODELS "dog" = MODELS /\ (filtered [] "dog" = [] -> @nil Model = []).
Proof.
  split.
  - apply (proj1 (filtered_fallback MODELS "dog")).
    intros m Hm Hrec. apply (matches_record_matches "dog") in Hrec.
    simpl in Hm. by repeat destruct Hm as [<-|Hm].
  - apply (proj2 (filtered_fallback [] "dog")).
Defined.

(** The scenario of the specification: of A("cat"), B("dog") and
    C("dog", "new") the query "dog" leaves B and C. *)
Example filtered_scenario :
  let rec_ n ts := {| name := n; url := "#"; image := ""; tags := Some ts |} in
  filtered [rec_ "A" ["cat"]; rec_ "B" ["dog"]; rec_ "C" ["dog"; "new"]] "dog"
  = [rec_ "B" ["dog"]; rec_ "C" ["dog"; "new"]].
Proof. reflexivity. Qed.

Lemma next_prev_inverse_witness :
  exec (prev (cycleLen MODELS)) (exec (next (cycleLen MODELS)) (initial None))
  = initial None.
Proof.
  apply (next_prev_inverse MODELS (initial None)); simpl; lia.
Defined.

(** The scenario of the specification: on a visible sequence of two records
    the cursor goes 0, 1, 0. *)
Example next_wraps :
  let f := filtered MODELS "bio" in
  let s1 := exec (next (cycleLen f)) (initial None) in
  let s2 := exec (next (cycleLen f)) s1 in
  length f = 2%nat /\ index s1 = 1 /\ index s2 = 0.
Proof. by vm_compute. Qed.

(** C7, as the claim has it, fails in the Hardened revision: its effect
    tests the upper bound alone (line 376), so that a cursor of -1 is left
    at -1 by the clamp transition, outside the visible sequence, and the
    page draws no card. *)
Lemma hardened_clamp_negative :
  let s := {| index := -1; query := ""; interstitialFor := None;
              wheelLock := false; touchY := None; window := None |} in
  let s' := exec (Hardened.clamp_effect MODELS) s in
  length (filtered MODELS (query s')) = 3%nat /\
  index s' = -1 /\
  ~ in_range MODELS s' /\
  Hardened.current MODELS s' = None.
Proof.
  intros s s'. split_and!; [reflexivity | reflexivity | | reflexivity].
  unfold in_range. assert (Hi : index s' = -1) by reflexivity. lia.
Qed.

Lemma clamp_restores_range_witness :
  let s := exec (setQuery "bio") (exec (setIndex (fun _ => 2)) (initial None)) in
  let s' := exec (Hardened.clamp_effect MODELS) s in
  query s' = "bio" /\ in_range MODELS s'.
Proof.
  intros s s'.
  destruct clamp_restores_range as (_ & _ & _ & _ & H & _).
  specialize (H MODELS s ltac:(by vm_compute)).
  cbv zeta in H. exact H.
Defined.

Lemma session_gate_total_witness :
  let w := {| getItem_throws := true; setItem_throws := true;
              sessionStorage := {[ onceKey := "1" ]}; opened := [] |} in
  outcome hasBeenShown (initial (Some w)) = Ok false /\
  markShown (initial (Some w)) = (Ok tt, initial (Some w)) /\
  outcome hasBeenShown (initial None) = Ok false.
Proof.
  intros w. split_and!.
  - apply (session_gate_total (initial (Some w)) onceKey "1") with (e := DOMException).
    reflexivity.
  - apply (session_gate_total (initial (Some w)) onceKey "1") with (e := DOMException).
    reflexivity.
  - apply (session_gate_total (initial None) onceKey "1"). reflexivity.
Defined.

(** C1, as the claim has it, fails in a browser whose [setItem] raises: the
    write of [proceed] is swallowed, the gate still reads as not shown, and
    the next [openLink] opens nothing and brings the interstitial up
    again. *)
Lemma gate_unset_when_write_fails :
  let w := {| getItem_throws := false; setItem_throws := true;
              sessionStorage := ∅; opened := [] |} in
  let s0 := initial (Some w) in
  let s1 := exec (Modern.openLink None (MODELS !! 0%nat)) s0 in
  let s2 := exec (Modern.proceed None) s1 in
  let s3 := exec (Modern.openLink None (MODELS !! 1%nat)) s2 in
  interstitialFor s1 = MODELS !! 0%nat /\
  outcome (Modern.proceed None) s1 = Ok tt /\
  outcome hasBeenShown s2 = Ok false /\
  opened_urls s3 = opened_urls s2 /\
  interstitialFor s3 = MODELS !! 1%nat.
Proof. by vm_compute. Qed.

Lemma link_dispatch_gated_witness :
  let w := {| getItem_throws := false; setItem_throws := false;
              sessionStorage := ∅; opened := [] |} in
  let s := exec (setInterstitialFor (MODELS !! 0%nat)) (initial (Some w)) in
  outcome hasBeenShown (exec (Modern.proceed None) s) = Ok true.
Proof.
  intros w s.
  destruct (link_dispatch_gated None MODELS) as [(_ & _ & _ & H) _].
  eapply H.
  - exists w. by split_and!.
  - reflexivity.
  - done.
Defined.

(** C2, as the claim has it, fails in the Modern revision when nothing is
    pending, or the pending record has no url: its [proceed] returns at the
    guard of line 135, the sponsor is not opened and the gate is not
    marked. *)
Lemma modern_proceed_guard :
  let w := {| getItem_throws := false; setItem_throws := false;
              sessionStorage := ∅; opened := [] |} in
  let no_url := {| name := "Unnamed"; url := ""; image := ""; tags := None |} in
  let absent := initial (Some w) in
  let pending := exec (setInterstitialFor (Some no_url)) (initial (Some w)) in
  (Modern.proceed None absent = (Ok tt, absent) /\
   opened_urls (exec (Modern.proceed None) absent) = [] /\
   stored onceKey (exec (Modern.proceed None) absent) = None) /\
  (Modern.proceed None pending = (Ok tt, absent) /\
   opened_urls (exec (Modern.proceed None) pending) = [] /\
   stored onceKey (exec (Modern.proceed None) pending) = None).
Proof. by vm_compute. Qed.

Lemma proceed_order_witness :
  let w := {| getItem_throws := false; setItem_throws := false;
              sessionStorage := ∅; opened := [] |} in
  let s := exec (setInterstitialFor (MODELS !! 0%nat)) (initial (Some w)) in
  opened_urls (exec (Modern.proceed None) s)
  = ["https://otieu.com/4/9449507";
     "https://link-shortner-indol-nu.vercel.app/v0riwp"] /\
  opened_urls (exec (Hardened.proceed None) (initial (Some w)))
  = ["https://otieu.com/4/9449507"].
Proof.
  intros w s. split.
  - destruct (proceed_order None s w eq_refl) as [H _].
    edestruct H as (Hp & _ & Ho & _); [reflexivity | done |].
    by rewrite (exec_eq _ _ _ _ Hp), Ho.
  - destruct (proceed_order None (initial (Some w)) w eq_refl) as [_ H].
    destruct H as (Hp & Ho & _); [by left |].
    by rewrite (exec_eq _ _ _ _ Hp), Ho.
Defined.

Lemma gate_monotone_witness :
  let w := {| getItem_throws := false; setItem_throws := false;
              sessionStorage := {[ onceKey := "1" ]}; opened := [] |} in
  outcome hasBeenShown
    (Modern.run None MODELS
       [ClickOpen; ClickClose; Input "bio"; ClickNext; ClickOpen]
       (initial (Some w))) = Ok true.
Proof.
  intros w.
  destruct (gate_monotone None MODELS) as (_ & _ & H & _).
  apply H. reflexivity.
Defined.

(** C9, as the claim has it, fails in the Modern revision: a finger that
    comes down at 100 and goes up at 140 has moved by 40, which does not
    exceed 40, and yet [prev] is run (the cursor goes from 0 to 2); and one
    that goes up at 110 leaves the recorded start coordinate in place. *)
Lemma modern_touch_threshold :
  let down := {| touches := [100]; changedTouches := [100] |} in
  let up_at y := {| touches := []; changedTouches := [y] |} in
  let c := Modern.mount_cycleLen MODELS in
  let s1 := exec (onTouchStart down) (initial None) in
  touchY s1 = Some 100 /\
  index (exec (Modern.onTouchEnd c (up_at 140)) s1) = 2 /\
  index (exec (Modern.onTouchEnd c (up_at 140)) s1)
    = index (exec (prev c) s1) /\
  touchY (exec (Modern.onTouchEnd c (up_at 110)) s1) = Some 100.
Proof. by vm_compute. Qed.

Lemma touch_swipe_witness :
  let down := {| touches := [300]; changedTouches := [300] |} in
  let up := {| touches := []; changedTouches := [200] |} in
  let c := Modern.mount_cycleLen MODELS in
  let s1 := exec (onTouchStart down) (initial None) in
  exec (Modern.onTouchEnd c up) s1 = exec (set_touchY None) (exec (next c) s1) /\
  exec (Hardened.onTouchEnd c up) s1 = exec (set_touchY None) (exec (next c) s1).
Proof.
  intros down up c s1.
  destruct (touch_swipe c 300 200 down up (initial None) eq_refl eq_refl)
    as (_ & Hm & _ & _ & Hh & _).
  split; [apply Hm | apply Hh]; simpl; lia.
Defined.

Lemma current_total_witness :
  let s := {| index := -7; query := ""; interstitialFor := None;
              wheelLock := false; touchY := None; window := None |} in
  Modern.current [] s = None /\
  Modern.reel [] s = EmptyState "No creators match your search." /\
  Hardened.current [] s = None /\
  Hardened.reel [] s = EmptyState "No creators".
Proof.
  intros s. apply (current_total [] s). reflexivity.
Defined.

Example current_scenario :
  let s := exec (setQuery "bio") (initial None) in
  Modern.current MODELS s = MODELS !! 0%nat /\
  Modern.current MODELS (exec (setIndex (fun _ => 1)) s) = MODELS !! 1%nat /\
  Modern.current MODELS (exec (setIndex (fun _ => 2)) s) = None /\
  Hardened.current MODELS (exec (setIndex (fun _ => -1)) s) = None.
Proof. by vm_compute. Qed.

(** ** A session of the page

    The scenario of the specification, on the page's own directory and in a
    browser whose storage works: the first click on Open brings the
    interstitial up, Proceed opens the sponsor and then the first record and
    sets the flag, and after Next a click on Open opens the second record
    alone. *)
Example session_scenario :
  let w := {| getItem_throws := false; setItem_throws := false;
              sessionStorage := ∅; opened := [] |} in
  let s1 := Modern.run None MODELS [ClickOpen] (initial (Some w)) in
  let s2 := Modern.run None MODELS [ClickProceed] s1 in
  let s3 := Modern.run None MODELS [ClickNext; ClickOpen] s2 in
  interstitialFor s1 = MODELS !! 0%nat /\ opened_urls s1 = [] /\
  opened_urls s2 = ["https://otieu.com/4/9449507";
                    "https://link-shortner-indol-nu.vercel.app/v0riwp"] /\
  stored onceKey s2 = Some "1" /\
  interstitialFor s3 = None /\
  opened_urls s3 = (opened_urls s2 ++
                    ["https://link-shortner-indol-nu.vercel.app/gpvegn"])%list.
Proof. by vm_compute. Qed.

Lemma filtered_sound_complete_witness :
  In {| name := "Your Creator 3"; url := "#";
        image := "https://placehold.co/720x1280?text=Creator+3%5Cn9:16";
        tags := Some ["new"] |} (filtered MODELS "  CREATOR ").
Proof.
  apply (filtered_sound_complete MODELS "  CREATOR ").
  - simpl. auto.
  - left. by exists "your ", " 3".
Defined.

Lemma clamp_effect_settles_witness :
  exec (Modern.clamp_effect MODELS) (initial None) = initial None /\
  exec (Hardened.clamp_effect MODELS) (initial None) = initial None.
Proof.
  apply (clamp_effect_settles MODELS (initial None)).
  unfold in_range. split; [done | reflexivity].
Defined.

Lemma wheel_small_delta_locks_witness :
  exec (onWheel 3 400) (exec (onWheel 3 5) (initial None))
  = exec (set_wheelLock true) (initial None).
Proof.
  apply (wheel_small_delta_locks 3 5 400 (initial None)); [done | lia].
Defined.

Lemma arrow_buttons_ring_witness :
  index (Modern.run None MODELS (replicate 7 ClickNext) (initial None))
  = (0 + 7) mod cycleLen (filtered MODELS "").
Proof.
  destruct (arrow_buttons_ring None MODELS 7 (initial None)) as [H _].
  - by vm_compute.
  - vm_compute in H |- *. exact H.
Defined.

Lemma advance_agrees_under_filter_witness :
  let s := Modern.run None MODELS [Input "bio"; ClickNext] (initial None) in
  index s = 1 /\
  Modern.dispatch None MODELS (KeyDown "ArrowDown") s
  = Modern.dispatch None MODELS ClickNext s.
Proof.
  intros s. split; [reflexivity |].
  apply (advance_agrees_under_filter None MODELS s).
  unfold in_range. split; [by vm_compute | reflexivity].
Defined.

Lemma retreat_under_filter_witness :
  let s := Modern.run None MODELS [Input "bio"] (initial None) in
  index (Modern.dispatch None MODELS (KeyDown "ArrowUp") s) = 0 /\
  index (Modern.dispatch None MODELS ClickPrevious s) = 2 - 1.
Proof.
  intros s.
  destruct (retreat_under_filter None MODELS s) as [_ H].
  - by vm_compute.
  - specialize (H ltac:(by vm_compute) ltac:(by vm_compute)).
    vm_compute in H |- *. exact H.
Defined.

Lemma navigation_moves_cursor_only_witness :
  let w := {| getItem_throws := false; setItem_throws := false;
              sessionStorage := ∅; opened := [] |} in
  window (Modern.dispatch None MODELS (Wheel 120) (initial (Some w))) = Some w.
Proof.
  intros w.
  pose proof (navigation_moves_cursor_only None MODELS (Wheel 120)
                (initial (Some w)) eq_refl) as [[H _] _].
  exact H.
Defined.

Lemma storage_written_once_key_only_witness :
  let w := {| getItem_throws := false; setItem_throws := false;
              sessionStorage := {[ "theme" := "dark" ]}; opened := [] |} in
  exists w',
    window (Modern.run None MODELS [ClickOpen; ClickProceed; ClickOpen]
              (initial (Some w))) = Some w' /\
    (forall k, k <> onceKey ->
       sessionStorage w' !! k = ({[ "theme" := "dark" ]} : gmap string string) !! k) /\
    (sessionStorage w' !! onceKey
       = ({[ "theme" := "dark" ]} : gmap string string) !! onceKey \/
     sessionStorage w' !! onceKey = Some "1").
Proof.
  intros w.
  pose proof (storage_written_once_key_only None MODELS
                [ClickOpen; ClickProceed; ClickOpen] (initial (Some w)) w
                eq_refl) as [H _].
  exact H.
Defined.

Lemma pending_record_has_url_witness :
  url {| name := "Charvi Bhatt";
         url := "https://link-shortner-indol-nu.vercel.app/v0riwp";
         image := "https://i.ibb.co/xqwpVcCB/IMG-20251110-003150-720.jpg";
         tags := Some ["actress"; "biography"; "reels"] |} <> "" /\
  In {| name := "Charvi Bhatt";
        url := "https://link-shortner-indol-nu.vercel.app/v0riwp";
        image := "https://i.ibb.co/xqwpVcCB/IMG-20251110-003150-720.jpg";
        tags := Some ["actress"; "biography"; "reels"] |} MODELS.
Proof.
  pose proof (pending_record_has_url None MODELS [ClickOpen] None
                {| name := "Charvi Bhatt";
                   url := "https://link-shortner-indol-nu.vercel.app/v0riwp";
                   image := "https://i.ibb.co/xqwpVcCB/IMG-20251110-003150-720.jpg";
                   tags := Some ["actress"; "biography"; "reels"] |}) as [H _].
  apply H. by vm_compute.
Defined.

Lemma proceed_opens_two_witness :
  let w := {| getItem_throws := false; setItem_throws := true;
              sessionStorage := ∅; opened := [] |} in
  let s := Modern.run None MODELS [ClickNext; ClickOpen] (initial (Some w)) in
  opened_urls (Modern.dispatch None MODELS ClickProceed s)
  = (opened_urls s ++ ["https://otieu.com/4/9449507";
                       "https://link-shortner-indol-nu.vercel.app/gpvegn"])%list.
Proof.
  intros w s.
  pose proof (proceed_opens_two None MODELS [ClickNext; ClickOpen] w
                {| name := "Arushi Chatterjee";
                   url := "https://link-shortner-indol-nu.vercel.app/gpvegn";
                   image := "https://i.ibb.co/5WrM1PSf/photo-2025-11-10-08-09-45.jpg";
                   tags := Some ["actress"; "bio"] |}) as [H _].
  cbv zeta in H. destruct H as [H _]; [by vm_compute |].
  exact H.
Defined.

Lemma handlers_exceptions_witness :
  let w := {| getItem_throws := true; setItem_throws := true;
              sessionStorage := ∅; opened := [] |} in
  outcome (Modern.handle None MODELS ClickProceed)
    (exec (setInterstitialFor (MODELS !! 0%nat)) (initial (Some w))) = Ok tt /\
  Hardened.handle None MODELS ClickProceed
    (exec (setInterstitialFor (MODELS !! 0%nat)) (initial None))
  = (Throw ReferenceError, initial None).
Proof.
  intros w. split.
  - pose proof (handlers_exceptions None MODELS ClickProceed
                  (exec (setInterstitialFor (MODELS !! 0%nat)) (initial (Some w))))
      as [H _].
    exact H.
  - pose proof (handlers_exceptions None MODELS ClickProceed
                  (exec (setInterstitialFor (MODELS !! 0%nat)) (initial None)))
      as [_ H].
    apply H; [reflexivity | by eexists].
Defined.

Lemma card_always_shown_witness :
  exists m,
    Modern.reel MODELS (Modern.dispatch None MODELS (Input "no such creator")
                          (initial None)) = Card m /\
    In m MODELS.
Proof.
  destruct (card_always_shown None MODELS) as (_ & H & _).
  destruct (H (Input "no such creator") (initial None)) as [_ Hc].
  apply Hc. discriminate.
Defined.

(** The render between a handler and the clamp effect: with the cursor on
    the third card, the edit of the query to "bio" leaves two records
    visible and the cursor on 2; the page draws its empty state, and after
    the effect the first card. *)
Example empty_state_before_clamp :
  let s := exec (setIndex (fun _ => 2)) (initial None) in
  let s1 := exec (Modern.handle None MODELS (Input "bio")) s in
  length (filtered MODELS (query s1)) = 2%nat /\
  Modern.reel MODELS s1 = EmptyState "No creators match your search." /\
  Modern.reel MODELS (exec (Modern.clamp_effect MODELS) s1)
  = Card {| name := "Charvi Bhatt";
            url := "https://link-shortner-indol-nu.vercel.app/v0riwp";
            image := "https://i.ibb.co/xqwpVcCB/IMG-20251110-003150-720.jpg";
            tags := Some ["actress"; "biography"; "reels"] |}.
Proof. by vm_compute. Qed.

(** The page's directory is the normalisation of [RAW_MODELS]. *)
Example normalized_RAW_MODELS : normalized RAW_MODELS = MODELS.
Proof. reflexivity. Qed.


Example useModelDataChecks_MODELS : useModelDataChecks MODELS = [].
Proof. reflexivity. Qed.

Lemma default_url_is_opened_witness :
  let r := {| raw_name := Some "New"; raw_url := None; raw_image := None;
              raw_tags := None |} in
  let w := {| getItem_throws := false; setItem_throws := false;
              sessionStorage := {[ onceKey := "1" ]}; opened := [] |} in
  opened_urls (exec (Modern.openLink None (Some (normalize (Some r))))
                 (initial (Some w))) = ["#"].
Proof.
  intros r w.
  destruct (default_url_is_opened None r (initial (Some w))) as (_ & _ & H).
  rewrite (exec_eq _ _ _ _ (H ltac:(done))). reflexivity.
Defined.

Lemma opens_per_event_witness :
  opened_urls (Modern.dispatch None MODELS ClickNext (initial None))
  = (opened_urls (initial None) ++ [])%list.
Proof.
  destruct (opens_per_event None MODELS ClickNext (initial None))
    as [(l & Hl & _ & _ & Hnil) _].
  rewrite (Hnil ltac:(discriminate) ltac:(discriminate)) in Hl. exact Hl.
Defined.

Lemma useModelDataChecks_reports_witness :
  In (ErrorMissingUrl 1)
    (useModelDataChecks
       [ {| name := "A"; url := "#"; image := "a.jpg"; tags := Some [] |};
         {| name := "B"; url := ""; image := "b.jpg"; tags := Some [] |} ]).
Proof.
  apply (useModelDataChecks_reports
           [ {| name := "A"; url := "#"; image := "a.jpg"; tags := Some [] |};
             {| name := "B"; url := ""; image := "b.jpg"; tags := Some [] |} ] 1).
  by eexists.
Defined.

Lemma checks_after_normalisation_witness :
  exists i,
    In (ErrorMissingName i)
      (useModelDataChecks
         (normalized
            [ None;
              Some {| raw_name := None; raw_url := None; raw_image := None;
                      raw_tags := None |};
              Some {| raw_name := Some ""; raw_url := None; raw_image := None;
                      raw_tags := None |} ])).
Proof.
  apply (checks_after_normalisation
           [ None;
             Some {| raw_name := None; raw_url := None; raw_image := None;
                     raw_tags := None |};
             Some {| raw_name := Some ""; raw_url := None; raw_image := None;
                     raw_tags := None |} ]).
  exists {| raw_name := Some ""; raw_url := None; raw_image := None;
            raw_tags := None |}.
  split; [simpl; auto | reflexivity].
Defined.
